(** * Python-Log-Parser: the scan of an SSH authentication log

    A shallow embedding of [src/log_parser.py]: the two regular
    expressions, the per-line classification of [parse_auth_log], and the
    command-line wrapper [main] with the files it reads and writes. *)

From Stdlib Require Import NArith String Ascii Lia.
From stdpp Require Import base option list strings gmap pretty.

Local Open Scope N_scope.

(** ** Text

    A Python [str] is a sequence of Unicode code points.  The literals of
    the source are ASCII; [str] turns one into its code points. *)

Abbreviation text := (list N).

Definition str (s : string) : text :=
  (λ a, N_of_ascii a) <$> list_ascii_of_string s.

Arguments str : simpl never.

(** The character tables of the interpreter.  Below 128 they are written
    out; beyond ASCII they are the tables of the Unicode database the
    interpreter was built with, taken here as they come. *)
Class UnicodeTables := {
  uni_alnum : N → bool;     (* [str.isalnum] of a non-ASCII character *)
  uni_decimal : N → bool;   (* [str.isdecimal] of a non-ASCII character *)
  uni_space : N → bool;     (* [str.isspace] of a non-ASCII character *)
}.

(** The tables of an interpreter that knows no letter, digit or blank
    beyond ASCII; used to run the model on concrete lines. *)
Definition ascii_tables : UnicodeTables :=
  {| uni_alnum := λ _, false; uni_decimal := λ _, false; uni_space := λ _, false |}.

(** What the groups of a match captured: [group(n)] is [None] for a group
    that took no part in the match. *)
Abbreviation groups := (gmap nat text).

Section Scanner.
Context {U : UnicodeTables}.

Definition ascii_digit (c : N) : bool := (48 <=? c) && (c <=? 57).
Definition ascii_upper (c : N) : bool := (65 <=? c) && (c <=? 90).
Definition ascii_lower (c : N) : bool := (97 <=? c) && (c <=? 122).

(** [\d] of a [str] pattern: a decimal digit. *)
Definition is_digit (c : N) : bool :=
  if c <? 128 then ascii_digit c else uni_decimal c.

(** [\w] of a [str] pattern: alphanumeric, or the underscore. *)
Definition is_word (c : N) : bool :=
  if c <? 128 then ascii_digit c || ascii_upper c || ascii_lower c || (c =? 95)
  else uni_alnum c.

(** [[\d\.]]: a digit or a dot. *)
Definition is_digit_or_dot (c : N) : bool := is_digit c || (c =? 46).

(** [str.isspace] of one character: TAB, LF, VT, FF, CR, FS, GS, RS, US and
    the space below 128. *)
Definition is_space (c : N) : bool :=
  if c <? 128 then ((9 <=? c) && (c <=? 13)) || ((28 <=? c) && (c <=? 32))
  else uni_space c.

(** [str.strip()]: whitespace removed at both ends. *)
Fixpoint lstrip (s : text) : text :=
  match s with
  | c :: s' => if is_space c then lstrip s' else s
  | [] => []
  end.

Definition rstrip (s : text) : text := reverse (lstrip (reverse s)).

Definition strip (s : text) : text := rstrip (lstrip s).

(** ** The regular expressions

    The fragment of [re] syntax the two patterns are written in: literal
    text, a greedy [+] over a character set, a greedy [?], concatenation and
    numbered capture groups. *)
Inductive regex :=
| Lit (l : text)
| Plus (p : N → bool)
| Opt (r : regex)
| Cat (r1 r2 : regex)
| Group (n : nat) (r : regex).

Fixpoint strip_prefix (l s : text) : option text :=
  match l, s with
  | [], _ => Some s
  | a :: l', b :: s' => if a =? b then strip_prefix l' s' else None
  | _ :: _, [] => None
  end.

(** Greedy [+] over a set: take one character of the set, then first try to
    take more, and only then go on with the rest of the pattern. *)
Fixpoint plus_set {A} (p : N → bool) (s : text) (k : text → option A) : option A :=
  match s with
  | c :: s' =>
      if p c then
        match plus_set p s' k with
        | Some x => Some x
        | None => k s'
        end
      else None
  | [] => None
  end.

(** The backtracking matcher: [rmatch r s g k] matches [r] at the head of
    [s] and hands the remaining text and the groups to the rest of the
    pattern [k]; when [k] fails the next alternative of [r] is tried. *)
Fixpoint rmatch {A} (r : regex) (s : text) (g : groups)
    (k : text → groups → option A) : option A :=
  match r with
  | Lit l =>
      match strip_prefix l s with
      | Some s' => k s' g
      | None => None
      end
  | Plus p => plus_set p s (λ s', k s' g)
  | Opt r1 =>
      match rmatch r1 s g k with
      | Some x => Some x
      | None => k s g
      end
  | Cat r1 r2 => rmatch r1 s g (λ s1 g1, rmatch r2 s1 g1 k)
  | Group n r1 =>
      rmatch r1 s g (λ s' g', k s' (<[n := take (length s - length s') s]> g'))
  end.

(** A match of the whole pattern at the head of [s]; group 0 is the text
    matched. *)
Definition match_at (r : regex) (s : text) : option groups :=
  rmatch (Group 0 r) s ∅ (λ _ g, Some g).

(** [pattern.search(line)]: the match at the leftmost position that has
    one. *)
Fixpoint search (r : regex) (s : text) : option groups :=
  match match_at r s with
  | Some g => Some g
  | None =>
      match s with
      | _ :: s' => search r s'
      | [] => None
      end
  end.

(** [m.group(n)] *)
Definition group (m : groups) (n : nat) : option text := m !! n.

(** [Failed password for (invalid user )?(\w+) from ([\d\.]+) port \d+ ssh2] *)
Definition failed_pattern : regex :=
  Cat (Lit (str "Failed password for "))
  (Cat (Opt (Group 1 (Lit (str "invalid user "))))
  (Cat (Group 2 (Plus is_word))
  (Cat (Lit (str " from "))
  (Cat (Group 3 (Plus is_digit_or_dot))
  (Cat (Lit (str " port "))
  (Cat (Plus is_digit)
       (Lit (str " ssh2")))))))).

(** [Accepted password for (\w+) from ([\d\.]+) port \d+ ssh2] *)
Definition success_pattern : regex :=
  Cat (Lit (str "Accepted password for "))
  (Cat (Group 1 (Plus is_word))
  (Cat (Lit (str " from "))
  (Cat (Group 2 (Plus is_digit_or_dot))
  (Cat (Lit (str " port "))
  (Cat (Plus is_digit)
       (Lit (str " ssh2"))))))).

(** ** The scan *)

(** One entry of the result lists: the dict with the keys ['user'], ['ip']
    and ['raw'].  The first two hold what [group] returned. *)
Record LoginAttempt := {
  user : option text;
  ip : option text;
  raw : text;
}.

(** The body of the loop over the lines of the file. *)
Definition scan_line (acc : list LoginAttempt * list LoginAttempt) (line : text)
    : list LoginAttempt * list LoginAttempt :=
  let '(failed_logins, successful_logins) := acc in
  match search failed_pattern line with
  | Some failed_match =>
      (failed_logins ++ [ {| user := group failed_match 2;
                             ip := group failed_match 3;
                             raw := strip line |} ],
       successful_logins)
  | None =>
      match search success_pattern line with
      | Some success_match =>
          (failed_logins,
           successful_logins ++ [ {| user := group success_match 1;
                                     ip := group success_match 2;
                                     raw := strip line |} ])
      | None => (failed_logins, successful_logins)
      end
  end.

(** The loop of [parse_auth_log] over the lines the file yields. *)
Definition scan (lines : list text) : list LoginAttempt * list LoginAttempt :=
  foldl scan_line ([], []) lines.

End Scanner.

(** ** Files, standard output and exceptions *)

(** A path as the tuple of its components ([Path.parts]); the first
    component of an absolute path is ["/"]. *)
Abbreviation Path := (list string).

(** [Path.parent] *)
Definition parent (p : Path) : Path :=
  match p with
  | ["/"%string] => p
  | _ => removelast p
  end.

(** [str(path)] *)
Definition path_str (p : Path) : text :=
  match p with
  | [] => str "."
  | "/"%string :: rest => str "/" ++ str (String.concat "/" rest)
  | _ => str (String.concat "/" p)
  end.

(** What a path names: a file with its decoded text, or a directory. *)
Inductive node :=
| File (content : text)
| Dir.

(** The part of the world the program touches: the file system, keyed by
    path, and what was printed, one entry per call of [print]. *)
Record World := {
  files : gmap Path node;
  stdout : list text;
}.

Inductive exn :=
| FileNotFoundError (p : Path)
| IsADirectoryError (p : Path).

(** A computation that may raise and that changes the world. *)
Definition M (A : Type) : Type := World → (exn + A) * World.

#[global] Instance M_ret : MRet M := λ A a w, (inr a, w).

#[global] Instance M_bind : MBind M := λ A B f m w,
  match m w with
  | (inr a, w') => f a w'
  | (inl e, w') => (inl e, w')
  end.

(** [print(s)] *)
Definition print (s : text) : M unit :=
  λ w, (inr tt, {| files := files w; stdout := stdout w ++ [s] |}).

(** [path.exists()] *)
Definition path_exists (p : Path) : M bool :=
  λ w, (inr (bool_decide (is_Some (files w !! p))), w).

(** The lines a text file yields when iterated: the text is cut after each
    line ending, and the endings CR LF and CR are given as LF (universal
    newlines).  [cur] holds, reversed, the line read so far. *)
Fixpoint file_lines (cur : text) (s : text) : list text :=
  match s with
  | [] => match cur with [] => [] | _ => [reverse cur] end
  | c :: s' =>
      if c =? 10 then reverse (10 :: cur) :: file_lines [] s'
      else if c =? 13 then
        match s' with
        | c' :: s'' =>
            if c' =? 10 then reverse (10 :: cur) :: file_lines [] s''
            else reverse (10 :: cur) :: file_lines [] s'
        | [] => [reverse (10 :: cur)]
        end
      else file_lines (c :: cur) s'
  end.

(** [path.open('r', encoding='utf-8', errors='ignore')] followed by the
    iteration over the file: the lines of the decoded text. *)
Definition read_lines (p : Path) : M (list text) :=
  λ w, match files w !! p with
       | Some (File c) => (inr (file_lines [] c), w)
       | Some Dir => (inl (IsADirectoryError p), w)
       | None => (inl (FileNotFoundError p), w)
       end.

(** [path.open('w', encoding='utf-8')] followed by the writes of [s]: the
    file is created or replaced. *)
Definition write_text (p : Path) (s : text) : M unit :=
  λ w, match files w !! p with
       | Some Dir => (inl (IsADirectoryError p), w)
       | _ => (inr tt, {| files := <[p := File s]> (files w); stdout := stdout w |})
       end.

(** ** JSON, as [json.dump(obj, f, indent=2)] writes it *)

Definition hex_digit (n : N) : N := if n <? 10 then 48 + n else 87 + n.

Definition hex4 (n : N) : text :=
  [hex_digit (n / 4096 mod 16); hex_digit (n / 256 mod 16);
   hex_digit (n / 16 mod 16); hex_digit (n mod 16)].

(** [\uXXXX] *)
Definition u_escape (n : N) : text := [92; 117] ++ hex4 n.

(** One character of a string, with [ensure_ascii] on. *)
Definition escape_char (c : N) : text :=
  if c =? 92 then [92; 92]
  else if c =? 34 then [92; 34]
  else if c =? 8 then [92; 98]
  else if c =? 12 then [92; 102]
  else if c =? 10 then [92; 110]
  else if c =? 13 then [92; 114]
  else if c =? 9 then [92; 116]
  else if (32 <=? c) && (c <=? 126) then [c]
  else if c <? 65536 then u_escape c
  else
    let n := c - 65536 in
    u_escape (N.lor 55296 (N.land (N.shiftr n 10) 1023))
    ++ u_escape (N.lor 56320 (N.land n 1023)).

Definition json_string (s : text) : text :=
  [34] ++ concat (escape_char <$> s) ++ [34].

(** A value of the dicts: a string, or [None]. *)
Definition json_value (v : option text) : text :=
  match v with
  | Some s => json_string s
  | None => str "null"
  end.

(** [sep.join(items)] *)
Fixpoint join (sep : text) (items : list text) : text :=
  match items with
  | [] => []
  | [x] => x
  | x :: rest => x ++ sep ++ join sep rest
  end.

(** One dict, as an element of the outer list (nesting level 1). *)
Definition json_attempt (a : LoginAttempt) : text :=
  str "{" ++ [10] ++ str "    "
  ++ join (str "," ++ [10] ++ str "    ")
       [ json_string (str "user") ++ str ": " ++ json_value (user a);
         json_string (str "ip") ++ str ": " ++ json_value (ip a);
         json_string (str "raw") ++ str ": " ++ json_string (raw a) ]
  ++ [10] ++ str "  " ++ str "}".

(** The list of dicts. *)
Definition json_dump (l : list LoginAttempt) : text :=
  match l with
  | [] => str "[]"
  | _ =>
      str "[" ++ [10] ++ str "  "
      ++ join (str "," ++ [10] ++ str "  ") (json_attempt <$> l)
      ++ [10] ++ str "]"
  end.

(** ** The program *)

Section Program.
Context {U : UnicodeTables}.

(** [parse_auth_log(log_path)] *)
Definition parse_auth_log (log_path : Path)
    : M (list LoginAttempt * list LoginAttempt) :=
  lines ← read_lines log_path;
  mret (scan lines).

(** [f"{v}"] of a dict value *)
Definition format_value (v : option text) : text :=
  match v with
  | Some s => s
  | None => str "None"
  end.

(** [for attempt in l: print(f"User: {attempt['user']}, IP: {attempt['ip']}")] *)
Fixpoint print_attempts (l : list LoginAttempt) : M unit :=
  match l with
  | [] => mret tt
  | attempt :: rest =>
      print (str "User: " ++ format_value (user attempt)
             ++ str ", IP: " ++ format_value (ip attempt));;
      print_attempts rest
  end.

(** [main()], after [argparse] has produced [args.logfile]. *)
Definition main (log_path : Path) : M unit :=
  found ← path_exists log_path;
  if negb found then
    print (str "Error: Log file does not exist: " ++ path_str log_path)
  else
    '(failed_logins, successful_logins) ← parse_auth_log log_path;
    print (str "Failed login attempts found: "
           ++ str (pretty (length failed_logins)));;
    print_attempts failed_logins;;
    print ([10] ++ str "Successful login attempts found: "
           ++ str (pretty (length successful_logins)));;
    print_attempts successful_logins;;
    let failed_file := parent log_path ++ ["failed_logins.json"%string] in
    let success_file := parent log_path ++ ["successful_logins.json"%string] in
    write_text failed_file (json_dump failed_logins);;
    write_text success_file (json_dump successful_logins);;
    print ([10] ++ str "Parsed data saved to:" ++ [10] ++ str "   "
           ++ path_str failed_file ++ [10] ++ str " " ++ path_str success_file).

End Program.

(** * Notions used to state the properties *)

Section Notions.
Context {U : UnicodeTables}.

(** [matches r m g g']: the text [m] is a match of [r] that turns the
    groups [g] into [g']. *)
Inductive matches : regex → text → groups → groups → Prop :=
| matches_lit l g :
    matches (Lit l) l g g
| matches_plus p m g :
    m ≠ [] → Forall (λ c, p c = true) m → matches (Plus p) m g g
| matches_opt_some r m g g' :
    matches r m g g' → matches (Opt r) m g g'
| matches_opt_none r g :
    matches (Opt r) [] g g
| matches_cat r1 r2 m1 m2 g g1 g2 :
    matches r1 m1 g g1 → matches r2 m2 g1 g2 →
    matches (Cat r1 r2) (m1 ++ m2) g g2
| matches_group n r m g g' :
    matches r m g g' → matches (Group n r) m g (<[n := m]> g').

(** A non-empty run of characters of a set: what a [+] takes. *)
Definition run (p : N → bool) (m : text) : Prop :=
  m ≠ [] ∧ Forall (λ c, p c = true) m.

(** The text of a failed login: [o] is what the optional group took. *)
Definition failed_text (o u i d : text) : text :=
  str "Failed password for " ++ o ++ u ++ str " from " ++ i
  ++ str " port " ++ d ++ str " ssh2".

(** The text of a successful login. *)
Definition success_text (u i d : text) : text :=
  str "Accepted password for " ++ u ++ str " from " ++ i
  ++ str " port " ++ d ++ str " ssh2".

(** [t] is [line] without the whitespace at its two ends. *)
Definition trimmed_of (line t : text) : Prop :=
  ∃ l r, line = l ++ t ++ r
    ∧ Forall (λ c, is_space c = true) l
    ∧ Forall (λ c, is_space c = true) r
    ∧ (∀ c, head t = Some c → is_space c = false)
    ∧ (∀ c, last t = Some c → is_space c = false).

(** What a line adds to the failed list. *)
Definition failed_of_line (line : text) : option LoginAttempt :=
  m ← search failed_pattern line;
  Some {| user := group m 2; ip := group m 3; raw := strip line |}.

(** What a line adds to the successful list: nothing when the failed
    pattern matches it. *)
Definition successful_of_line (line : text) : option LoginAttempt :=
  match search failed_pattern line with
  | Some _ => None
  | None =>
      m ← search success_pattern line;
      Some {| user := group m 1; ip := group m 2; raw := strip line |}
  end.

(** A line with a failed login and a successful login in it. *)
Definition both_line : text :=
  str "Failed password for root from 10.0.0.1 port 22 ssh2; Accepted password for root from 10.0.0.1 port 22 ssh2".

(** The line printed for one attempt. *)
Definition attempt_line (a : LoginAttempt) : text :=
  str "User: " ++ format_value (user a) ++ str ", IP: " ++ format_value (ip a).

(** What [main] prints between the scan and the writing of the files. *)
Definition report (failed_logins successful_logins : list LoginAttempt) : list text :=
  [str "Failed login attempts found: " ++ str (pretty (length failed_logins))]
  ++ (attempt_line <$> failed_logins)
  ++ [[10] ++ str "Successful login attempts found: "
      ++ str (pretty (length successful_logins))]
  ++ (attempt_line <$> successful_logins).

(** The two files [main] writes, next to the log. *)
Definition failed_file (log_path : Path) : Path :=
  parent log_path ++ ["failed_logins.json"%string].
Definition success_file (log_path : Path) : Path :=
  parent log_path ++ ["successful_logins.json"%string].

(** The last line [main] prints. *)
Definition saved_line (log_path : Path) : text :=
  [10] ++ str "Parsed data saved to:" ++ [10] ++ str "   "
  ++ path_str (failed_file log_path) ++ [10] ++ str " "
  ++ path_str (success_file log_path).

Definition with_stdout (w : World) (out : list text) : World :=
  {| files := files w; stdout := stdout w ++ out |}.

(** The groups of a failed login matched from its first character. *)
Definition failed_groups (o u i d : text) : groups :=
  <[0%nat := failed_text o u i d]>
    (<[3%nat := i]> (<[2%nat := u]> (match o with [] => ∅ | _ => <[1%nat := o]> ∅ end))).

(** The groups of a successful login matched from its first character. *)
Definition success_groups (u i d : text) : groups :=
  <[0%nat := success_text u i d]> (<[2%nat := i]> (<[1%nat := u]> ∅)).

(** The two lines of the examples. *)
Definition bob_line : text :=
  str "Failed password for invalid user bob from 10.0.0.5 port 22 ssh2".
Definition alice_line : text :=
  str "Accepted password for alice from 192.168.1.1 port 22 ssh2".

(** A world whose log has no login in it. *)
Definition quiet_world : World :=
  {| files := {[ ["var"; "auth.log"]%string :=
                   File (str "session opened for user root" ++ [10]
                         ++ str "Connection closed by 10.0.0.5 port 22" ++ [10]) ]};
     stdout := [] |}.

(** A world whose log has one login of each kind in it. *)
Definition busy_world : World :=
  {| files := {[ ["var"; "auth.log"]%string :=
                   File (bob_line ++ [13; 10] ++ alice_line ++ [10]) ]};
     stdout := [] |}.

(** No part of the pattern takes the character [c]. *)
Fixpoint rejects (c : N) (r : regex) : Prop :=
  match r with
  | Lit l => c ∉ l
  | Plus p => p c = false
  | Opt r1 => rejects c r1
  | Cat r1 r2 => rejects c r1 ∧ rejects c r2
  | Group _ r1 => rejects c r1
  end.

(** A whole line: no CR, and no LF but a last one; a line without its LF
    is not empty. *)
Definition whole_line (l : text) : Prop :=
  ∃ body, Forall (λ c, c ≠ 10 ∧ c ≠ 13) body
    ∧ (l = body ++ [10] ∨ l = body ∧ body ≠ []).

(** A text with every LF written CR LF. *)
Fixpoint to_crlf (s : text) : text :=
  match s with
  | [] => []
  | c :: s' => if c =? 10 then 13 :: 10 :: to_crlf s' else c :: to_crlf s'
  end.

(** LF, and the printable characters of ASCII. *)
Definition printable (c : N) : bool :=
  (c =? 10) || ((32 <=? c) && (c <=? 126)).

(** A line with two failed logins in it, after a time stamp. *)
Definition two_logins_line : text :=
  str "10:00 " ++ failed_text [] (str "ann") (str "10.0.0.1") (str "22")
  ++ str "; " ++ failed_text [] (str "bea") (str "10.0.0.2") (str "22").

(** A world whose second output path is a directory. *)
Definition blocked_world : World :=
  {| files := {[ ["var"; "auth.log"]%string := File (bob_line ++ [10]);
                 ["var"; "successful_logins.json"]%string := Dir ]};
     stdout := [] |}.

(** A world whose log bears the name of the first output file. *)
Definition confused_world : World :=
  {| files := {[ ["var"; "failed_logins.json"]%string := File (bob_line ++ [10]) ]};
     stdout := [] |}.

End Notions.

(** * The matcher and the language of a pattern *)

Section Matcher.
Context {U : UnicodeTables}.

Lemma strip_prefix_Some l s s' :
  strip_prefix l s = Some s' ↔ s = l ++ s'.
Proof.
  revert s. induction l as [|a l IH]; intros [|b s]; simpl.
  - split; congruence.
  - split; congruence.
  - split; [done | intros [=]].
  - destruct (N.eqb_spec a b) as [->|Hne].
    + rewrite IH. split; congruence.
    + split; [done | intros [=]; congruence].
Qed.

Lemma strip_prefix_app l s : strip_prefix l (l ++ s) = Some s.
Proof. by apply strip_prefix_Some. Qed.

Lemma take_matched (m s' : text) :
  take (length (m ++ s') - length s') (m ++ s') = m.
Proof.
  rewrite length_app.
  replace (length m + length s' - length s')%nat with (length m) by lia.
  by rewrite take_app_length.
Qed.

Lemma plus_set_sound {A} p s (k : text → option A) x :
  plus_set p s k = Some x →
  ∃ m s', s = m ++ s' ∧ m ≠ [] ∧ Forall (λ c, p c = true) m ∧ k s' = Some x.
Proof.
  revert x. induction s as [|c s IH]; intros x; simpl; [done|].
  destruct (p c) eqn:Hc; [|done].
  destruct (plus_set p s k) as [y|] eqn:Hrec.
  - intros [= ->]. destruct (IH _ eq_refl) as (m & s' & -> & _ & Hall & Hk).
    exists (c :: m), s'. repeat split; [done | by constructor | done].
  - intros Hk. exists [c], s. repeat split; [done | by repeat constructor | done].
Qed.

Lemma plus_set_complete {A} p m s' (k : text → option A) :
  m ≠ [] → Forall (λ c, p c = true) m → is_Some (k s') →
  is_Some (plus_set p (m ++ s') k).
Proof.
  intros Hne Hall Hk. induction Hall as [|c m Hc Hall IH]; [done|]. simpl.
  rewrite Hc. destruct m as [|c' m].
  - simpl in *. by destruct (plus_set p s' k).
  - destruct (plus_set p ((c' :: m) ++ s') k) eqn:Hrec; [done|].
    destruct IH as [? IH]; [done|]. congruence.
Qed.

(** Soundness: what the matcher returns comes from a match of the pattern
    at the head of the text, followed by a success of the continuation. *)
Lemma rmatch_sound {A} r s g (k : text → groups → option A) x :
  rmatch r s g k = Some x →
  ∃ m s' g', s = m ++ s' ∧ matches r m g g' ∧ k s' g' = Some x.
Proof.
  revert A s g k x.
  induction r as [l|p|r IH|r1 IH1 r2 IH2|n r IH]; intros A s g k x; simpl.
  - destruct (strip_prefix l s) as [s'|] eqn:Hl; [|done].
    apply strip_prefix_Some in Hl as ->. intros Hk.
    exists l, s', g. split_and!; [done | constructor | done].
  - intros (m & s' & -> & Hne & Hall & Hk)%plus_set_sound.
    exists m, s', g. split_and!; [done | by constructor | done].
  - destruct (rmatch r s g k) as [y|] eqn:Hr.
    + intros [= ->]. destruct (IH _ _ _ _ _ Hr) as (m & s' & g' & -> & Hm & Hk).
      exists m, s', g'. split_and!; [done | by constructor | done].
    + intros Hk. exists [], s, g. split_and!; [done | apply matches_opt_none | done].
  - intros (m1 & s1 & g1 & -> & Hm1 & H2)%IH1.
    apply IH2 in H2 as (m2 & s2 & g2 & -> & Hm2 & Hk).
    exists (m1 ++ m2), s2, g2. split_and!; [by rewrite <-(assoc_L _) | | done].
    by econstructor.
  - intros (m & s' & g' & -> & Hm & Hk)%IH.
    rewrite take_matched in Hk.
    exists m, s', (<[n := m]> g'). split_and!; [done | by constructor | done].
Qed.

(** Completeness: where the pattern has a match after which the rest of
    the pattern succeeds whatever the groups, the matcher succeeds (on this
    match or on one it tries before). *)
Lemma rmatch_complete {A} r m g g' :
  matches r m g g' →
  ∀ (k : text → groups → option A) s' g0,
    (∀ g1, is_Some (k s' g1)) → is_Some (rmatch r (m ++ s') g0 k).
Proof.
  induction 1 as [l g|p m g Hne Hall|r m g g' Hm IH|r g
                 |r1 r2 m1 m2 g g1 g2 Hm1 IH1 Hm2 IH2|n r m g g' Hm IH];
    intros k s' g0 Hk; simpl.
  - by rewrite strip_prefix_app.
  - by apply plus_set_complete.
  - destruct (IH k s' g0 Hk) as [y ->]. done.
  - by destruct (rmatch r s' g0 k).
  - rewrite <-(assoc_L _). apply IH1. intros g3. by apply IH2.
  - apply IH. intros g3. apply Hk.
Qed.

Lemma match_at_sound r s g :
  match_at r s = Some g →
  ∃ m s' g', s = m ++ s' ∧ matches r m ∅ g' ∧ g = <[0%nat := m]> g'.
Proof.
  unfold match_at.
  intros (m & s' & g' & -> & Hm & [= <-])%rmatch_sound.
  inversion Hm; subst. eauto 10.
Qed.

Lemma match_at_complete r m s' g g' :
  matches r m g g' → is_Some (match_at r (m ++ s')).
Proof.
  intros Hm. unfold match_at.
  apply (rmatch_complete (Group 0 r) m g (<[0%nat := m]> g')); [by constructor|].
  intros g1. done.
Qed.

Lemma search_sound r s g :
  search r s = Some g →
  ∃ pre m post g', s = pre ++ m ++ post ∧ matches r m ∅ g' ∧ g = <[0%nat := m]> g'.
Proof.
  induction s as [|c s IH]; simpl.
  - destruct (match_at r []) as [g1|] eqn:Hat; [|done].
    intros [= ->]. apply match_at_sound in Hat as (m & s' & g' & Hs & Hm & ->).
    exists [], m, s', g'. done.
  - destruct (match_at r (c :: s)) as [g1|] eqn:Hat.
    + intros [= ->]. apply match_at_sound in Hat as (m & s' & g' & Hs & Hm & ->).
      exists [], m, s', g'. done.
    + intros (pre & m & post & g' & -> & Hm & ->)%IH.
      exists (c :: pre), m, post, g'. done.
Qed.

Lemma search_complete r pre m post g g' :
  matches r m g g' → is_Some (search r (pre ++ m ++ post)).
Proof.
  intros Hm. induction pre as [|c pre IH]; simpl.
  - destruct (match_at_complete r m post g g' Hm) as [y Hy].
    destruct (m ++ post); simpl; by rewrite Hy.
  - destruct (match_at r (c :: pre ++ m ++ post)); done.
Qed.

(** [search] fails exactly when the pattern has no match at any position. *)
Lemma search_None r s :
  search r s = None ↔ ∀ i, match_at r (drop i s) = None.
Proof.
  induction s as [|c s IH]; simpl.
  - split.
    + intros H i. rewrite drop_nil. by destruct (match_at r []).
    + intros H. specialize (H 0%nat). simpl in H. by rewrite H.
  - destruct (match_at r (c :: s)) as [g|] eqn:Hat.
    + split; [done|]. intros H. specialize (H 0%nat). simpl in H. congruence.
    + rewrite IH. split.
      * intros H [|i]; [done | apply H].
      * intros H i. apply (H (S i)).
Qed.

End Matcher.

(** * The two patterns *)

Section Patterns.
Context {U : UnicodeTables}.

Ltac inv_matches :=
  repeat match goal with
  | H : matches (Cat _ _) _ _ _ |- _ => inversion H; subst; clear H
  | H : matches (Lit _) _ _ _ |- _ => inversion H; subst; clear H
  | H : matches (Plus _) _ _ _ |- _ => inversion H; subst; clear H
  | H : matches (Group _ _) _ _ _ |- _ => inversion H; subst; clear H
  | H : matches (Opt _) _ _ _ |- _ => inversion H; subst; clear H
  end.

Lemma failed_pattern_inv m g g' :
  matches failed_pattern m g g' →
  ∃ o u i d,
    m = failed_text o u i d
    ∧ (o = [] ∨ o = str "invalid user ")
    ∧ run is_word u ∧ run is_digit_or_dot i ∧ run is_digit d
    ∧ g' !! 2%nat = Some u ∧ g' !! 3%nat = Some i.
Proof.
  unfold failed_pattern. intros H. inv_matches.
  all: eexists _, _, _, _; split; [reflexivity|].
  all: split_and!; try (split; eassumption);
    [eauto | by simplify_map_eq | by simplify_map_eq].
Qed.

Lemma success_pattern_inv m g g' :
  matches success_pattern m g g' →
  ∃ u i d,
    m = success_text u i d
    ∧ run is_word u ∧ run is_digit_or_dot i ∧ run is_digit d
    ∧ g' !! 1%nat = Some u ∧ g' !! 2%nat = Some i.
Proof.
  unfold success_pattern. intros H. inv_matches.
  eexists _, _, _; split; [reflexivity|].
  split_and!; try (split; eassumption); by simplify_map_eq.
Qed.

Lemma failed_pattern_intro o u i d :
  (o = [] ∨ o = str "invalid user ") →
  run is_word u → run is_digit_or_dot i → run is_digit d →
  ∃ g', matches failed_pattern (failed_text o u i d) ∅ g'.
Proof.
  intros Ho [??] [??] [??]. unfold failed_pattern, failed_text.
  destruct Ho as [->| ->]; eexists.
  - repeat (first [eapply matches_cat | eapply matches_group | apply matches_lit
                  | apply matches_opt_none | by apply matches_plus]).
  - repeat (first [eapply matches_cat | eapply matches_group | apply matches_lit
                  | eapply matches_opt_some | by apply matches_plus]).
Qed.

Lemma success_pattern_intro u i d :
  run is_word u → run is_digit_or_dot i → run is_digit d →
  ∃ g', matches success_pattern (success_text u i d) ∅ g'.
Proof.
  intros [??] [??] [??]. unfold success_pattern, success_text. eexists.
  repeat (first [eapply matches_cat | eapply matches_group | apply matches_lit
                | by apply matches_plus]).
Qed.

End Patterns.

(** * Trimming *)

Section Trimming.
Context {U : UnicodeTables}.

Lemma lstrip_spec s :
  ∃ l, s = l ++ lstrip s
    ∧ Forall (λ c, is_space c = true) l
    ∧ (∀ c, head (lstrip s) = Some c → is_space c = false).
Proof.
  induction s as [|c s (l & Hs & Hl & Hh)]; simpl.
  - exists []. split_and!; [done | constructor | done].
  - destruct (is_space c) eqn:Hc.
    + exists (c :: l). split_and!; [simpl; congruence | by constructor | done].
    + exists []. split_and!; [done | constructor | by intros ? [= <-]].
Qed.

Lemma rstrip_spec s :
  ∃ r, s = rstrip s ++ r
    ∧ Forall (λ c, is_space c = true) r
    ∧ (∀ c, last (rstrip s) = Some c → is_space c = false).
Proof.
  unfold rstrip. destruct (lstrip_spec (reverse s)) as (l & Hs & Hl & Hh).
  exists (reverse l). split_and!.
  - rewrite <-reverse_app, <-Hs. by rewrite reverse_involutive.
  - by apply Forall_reverse.
  - intros c. rewrite last_reverse. apply Hh.
Qed.

Lemma strip_trimmed line : trimmed_of line (strip line).
Proof.
  unfold strip.
  destruct (lstrip_spec line) as (l & Hl & Hsl & Hh).
  destruct (rstrip_spec (lstrip line)) as (r & Hr & Hsr & Hlast).
  exists l, r. split_and!; [by rewrite <-Hr | done | done | | done].
  intros c Hc. apply Hh. rewrite Hr.
  destruct (rstrip (lstrip line)); [done|]. done.
Qed.

End Trimming.

(** * Facts about the two patterns on login texts *)

Section PatternFacts.
Context {U : UnicodeTables}.

Ltac norm_str :=
  repeat match goal with
  | |- context [str ?s] =>
      let v := eval vm_compute in (str s) in change (str s) with v
  | H : context [str ?s] |- _ =>
      let v := eval vm_compute in (str s) in change (str s) with v in H
  end.

Lemma is_word_space : is_word 32 = false.
Proof. reflexivity. Qed.

Lemma word_no_space u :
  Forall (λ c, is_word c = true) u → Forall (λ c, c ≠ 32) u.
Proof.
  intros Hu. eapply Forall_impl; [exact Hu|].
  intros c Hc ->. by rewrite is_word_space in Hc.
Qed.

(** A text is cut at its first separator in one way only. *)
Lemma split_at_first (sep : N) a b X Y :
  Forall (λ c, c ≠ sep) a → Forall (λ c, c ≠ sep) b →
  a ++ sep :: X = b ++ sep :: Y → a = b ∧ X = Y.
Proof.
  intros Ha. revert b. induction Ha as [|c a Hc Ha IH]; intros [|c' b] Hb; simpl.
  - by intros [= ->].
  - intros [= <- _]. by inversion Hb.
  - intros [= -> _]. done.
  - intros [= -> Hrest]. inversion Hb; subst.
    destruct (IH b) as [-> ->]; done.
Qed.

(** A user name is never the start of the text [invalid user ]. *)
Lemma word_run_not_invalid_user u X :
  run is_word u → ¬ str "invalid user " `prefix_of` u ++ str " from " ++ X.
Proof.
  intros [_ Hu%word_no_space] [k Hk]. norm_str.
  change (u ++ 32 :: [102; 114; 111; 109; 32] ++ X
          = [105; 110; 118; 97; 108; 105; 100] ++ 32 :: [117; 115; 101; 114; 32] ++ k) in Hk.
  apply split_at_first in Hk as [_ [=]]; [done|].
  repeat constructor; done.
Qed.

End PatternFacts.

(** * The scan, line by line *)

Section ScanFacts.
Context {U : UnicodeTables}.

Lemma scan_line_eq failed_logins successful_logins line :
  scan_line (failed_logins, successful_logins) line
  = (failed_logins ++ option_list (failed_of_line line),
     successful_logins ++ option_list (successful_of_line line)).
Proof.
  unfold scan_line, failed_of_line, successful_of_line.
  destruct (search failed_pattern line) as [m|]; simpl.
  - by rewrite (right_id_L [] (++)).
  - destruct (search success_pattern line) as [m|]; simpl;
      by rewrite !(right_id_L [] (++)).
Qed.

Lemma foldl_scan_line lines failed_logins successful_logins :
  foldl scan_line (failed_logins, successful_logins) lines
  = (failed_logins ++ omap failed_of_line lines,
     successful_logins ++ omap successful_of_line lines).
Proof.
  revert failed_logins successful_logins.
  induction lines as [|line lines IH]; intros F S; cbn [foldl omap list_omap].
  - by rewrite !(right_id_L [] (++)).
  - rewrite scan_line_eq, IH, <-!(assoc_L (++)).
    by destruct (failed_of_line line), (successful_of_line line).
Qed.

Lemma scan_omap lines :
  scan lines = (omap failed_of_line lines, omap successful_of_line lines).
Proof. unfold scan. by rewrite foldl_scan_line. Qed.

Lemma scan_app l1 l2 :
  scan (l1 ++ l2) = ((scan l1).1 ++ (scan l2).1, (scan l1).2 ++ (scan l2).2).
Proof. by rewrite !scan_omap, !omap_app. Qed.

(** What a match of the failed pattern by [search] looks like. *)
Lemma search_failed_inv line m :
  search failed_pattern line = Some m →
  ∃ pre o u i d post,
    line = pre ++ failed_text o u i d ++ post
    ∧ (o = [] ∨ o = str "invalid user ")
    ∧ run is_word u ∧ run is_digit_or_dot i ∧ run is_digit d
    ∧ group m 2 = Some u ∧ group m 3 = Some i.
Proof.
  intros (pre & t & post & g' & -> & Ht & ->)%search_sound.
  apply failed_pattern_inv in Ht as (o & u & i & d & -> & Ho & Hu & Hi & Hd & H2 & H3).
  exists pre, o, u, i, d, post. unfold group.
  rewrite !lookup_insert_ne by done. done.
Qed.

Lemma search_success_inv line m :
  search success_pattern line = Some m →
  ∃ pre u i d post,
    line = pre ++ success_text u i d ++ post
    ∧ run is_word u ∧ run is_digit_or_dot i ∧ run is_digit d
    ∧ group m 1 = Some u ∧ group m 2 = Some i.
Proof.
  intros (pre & t & post & g' & -> & Ht & ->)%search_sound.
  apply success_pattern_inv in Ht as (u & i & d & -> & Hu & Hi & Hd & H1 & H2).
  exists pre, u, i, d, post. unfold group.
  rewrite !lookup_insert_ne by done. done.
Qed.

(** C1: a line the failed pattern matches adds exactly one record to the
    failed list and none to the successful list.  Its user is the captured
    run of word characters, which starts after the text [invalid user ]
    when that text is there; its ip is the captured run of digits and
    dots; its raw is the line without the whitespace at its ends.  The
    line of the example gives the record of bob, with or without its line
    ending. *)
Theorem failed_line_recorded :
  (∀ line failed_logins successful_logins,
     is_Some (search failed_pattern line) →
     ∃ pre o u i d post,
       line = pre ++ failed_text o u i d ++ post
       ∧ run is_word u ∧ run is_digit_or_dot i ∧ run is_digit d
       ∧ (o = str "invalid user "
          ∨ o = [] ∧ ¬ str "invalid user " `prefix_of`
                        u ++ str " from " ++ i ++ str " port " ++ d ++ str " ssh2")
       ∧ trimmed_of line (strip line)
       ∧ scan_line (failed_logins, successful_logins) line
         = (failed_logins ++ [ {| user := Some u; ip := Some i; raw := strip line |} ],
            successful_logins))
  ∧ (∀ ending, ending = [] ∨ ending = [10] →
     scan [str "Failed password for invalid user bob from 10.0.0.5 port 22 ssh2" ++ ending]
     = ([ {| user := Some (str "bob"); ip := Some (str "10.0.0.5");
             raw := str "Failed password for invalid user bob from 10.0.0.5 port 22 ssh2" |} ],
        [])).
Proof.
  split.
  - intros line F S [m Hm].
    destruct (search_failed_inv _ _ Hm)
      as (pre & o & u & i & d & post & Hline & Ho & Hu & Hi & Hd & H2 & H3).
    exists pre, o, u, i, d, post. split_and!; try done.
    + destruct Ho as [->|Ho]; [right | by left].
      split; [done|]. by apply word_run_not_invalid_user.
    + apply strip_trimmed.
    + unfold scan_line. by rewrite Hm, H2, H3.
  - intros ending [->| ->]; vm_compute; reflexivity.
Qed.

(** C2: a line the failed pattern does not match and the successful pattern
    matches adds exactly one record to the successful list and none to the
    failed list, with the captured user and ip and the trimmed line.  The
    line of the example gives the record of alice. *)
Theorem successful_line_recorded :
  (∀ line failed_logins successful_logins,
     search failed_pattern line = None →
     is_Some (search success_pattern line) →
     ∃ pre u i d post,
       line = pre ++ success_text u i d ++ post
       ∧ run is_word u ∧ run is_digit_or_dot i ∧ run is_digit d
       ∧ trimmed_of line (strip line)
       ∧ scan_line (failed_logins, successful_logins) line
         = (failed_logins,
            successful_logins ++ [ {| user := Some u; ip := Some i; raw := strip line |} ]))
  ∧ (∀ ending, ending = [] ∨ ending = [10] →
     scan [str "Accepted password for alice from 192.168.1.1 port 22 ssh2" ++ ending]
     = ([],
        [ {| user := Some (str "alice"); ip := Some (str "192.168.1.1");
             raw := str "Accepted password for alice from 192.168.1.1 port 22 ssh2" |} ])).
Proof.
  split.
  - intros line F S Hf [m Hm].
    destruct (search_success_inv _ _ Hm)
      as (pre & u & i & d & post & Hline & Hu & Hi & Hd & H1 & H2).
    exists pre, u, i, d, post. split_and!; try done.
    + apply strip_trimmed.
    + unfold scan_line. by rewrite Hf, Hm, H1, H2.
  - intros ending [->| ->]; vm_compute; reflexivity.
Qed.

(** C3: a line the failed pattern matches goes to the failed list only,
    whatever the successful pattern says of it: it adds one record to the
    failed list and leaves the successful list as it was, in one step of
    the loop and in the whole scan.  [both_line] is a line both patterns
    match. *)
Theorem failed_match_excludes_success :
  (∀ line failed_logins successful_logins,
     is_Some (search failed_pattern line) →
     ∃ r, scan_line (failed_logins, successful_logins) line
          = (failed_logins ++ [r], successful_logins))
  ∧ (∀ before line after,
     is_Some (search failed_pattern line) →
     ∃ r, scan (before ++ line :: after)
          = ((scan before).1 ++ r :: (scan after).1,
             (scan before).2 ++ (scan after).2))
  ∧ (is_Some (search failed_pattern both_line)
     ∧ is_Some (search success_pattern both_line)
     ∧ (scan [both_line]).2 = []).
Proof.
  split_and!.
  - intros line F S [m Hm]. unfold scan_line. rewrite Hm. eauto.
  - intros before line after [m Hm].
    rewrite scan_app. change (line :: after) with ([line] ++ after).
    rewrite (scan_app [line] after), (scan_omap [line]). simpl.
    unfold failed_of_line, successful_of_line. rewrite Hm. simpl. eauto.
  - vm_compute; eauto.
  - vm_compute; eauto.
  - vm_compute; reflexivity.
Qed.

(** C4: each of the two lists holds, in the order of the lines, what each
    line adds to it: nothing is dropped, merged or moved.  So the scan of
    two pieces of a log one after the other is the scan of the first
    followed by the scan of the second. *)
Theorem scan_keeps_line_order :
  (∀ lines,
     scan lines = (omap failed_of_line lines, omap successful_of_line lines))
  ∧ (∀ l1 l2,
     scan (l1 ++ l2) = ((scan l1).1 ++ (scan l2).1, (scan l1).2 ++ (scan l2).2))
  ∧ (∀ line n, is_Some (failed_of_line line) →
     length (scan (replicate n line)).1 = n).
Proof.
  split_and!.
  - apply scan_omap.
  - apply scan_app.
  - intros line n [r Hr]. rewrite scan_omap.
    change (length (omap failed_of_line (replicate n line)) = n).
    induction n as [|n IH]; [done|].
    cbn [replicate omap list_omap]. rewrite Hr. cbn [length]. by f_equal.
Qed.

End ScanFacts.

(** * The program as a whole *)

Section ProgramFacts.
Context {U : UnicodeTables}.

Lemma print_attempts_spec l w :
  print_attempts l w = (inr tt, with_stdout w (attempt_line <$> l)).
Proof.
  revert w. induction l as [|a l IH]; intros [fs out]; simpl.
  - unfold mret, M_ret, with_stdout. simpl. by rewrite (right_id_L [] (++)).
  - unfold mbind, M_bind, print. simpl. rewrite IH. unfold with_stdout. simpl.
    by rewrite <-(assoc_L (++)).
Qed.

Lemma output_files_differ log_path : failed_file log_path ≠ success_file log_path.
Proof. unfold failed_file, success_file. by intros [=]%(inj (app _)). Qed.

Lemma bind_run {A B} (m : M A) (f : A → M B) w :
  (m ≫= f) w = match m w with
               | (inr a, w') => f a w'
               | (inl e, w') => (inl e, w')
               end.
Proof. reflexivity. Qed.

Lemma print_run s w : print s w = (inr tt, with_stdout w [s]).
Proof. reflexivity. Qed.

Lemma write_text_run p s w :
  write_text p s w =
  match files w !! p with
  | Some Dir => (inl (IsADirectoryError p), w)
  | _ => (inr tt, {| files := <[p := File s]> (files w); stdout := stdout w |})
  end.
Proof. reflexivity. Qed.

Lemma with_stdout_app w a b :
  with_stdout (with_stdout w a) b = with_stdout w (a ++ b).
Proof. unfold with_stdout. simpl. by rewrite (assoc_L (++)). Qed.

(** [main], case by case. *)
Lemma main_spec log_path w :
  main log_path w =
  match files w !! log_path with
  | None =>
      (inr tt, with_stdout w [str "Error: Log file does not exist: " ++ path_str log_path])
  | Some Dir => (inl (IsADirectoryError log_path), w)
  | Some (File content) =>
      let '(failed_logins, successful_logins) := scan (file_lines [] content) in
      let out := report failed_logins successful_logins in
      match files w !! failed_file log_path with
      | Some Dir => (inl (IsADirectoryError (failed_file log_path)), with_stdout w out)
      | _ =>
          let fs1 := <[failed_file log_path := File (json_dump failed_logins)]> (files w) in
          match files w !! success_file log_path with
          | Some Dir =>
              (inl (IsADirectoryError (success_file log_path)),
               {| files := fs1; stdout := stdout w ++ out |})
          | _ =>
              (inr tt,
               {| files := <[success_file log_path := File (json_dump successful_logins)]> fs1;
                  stdout := stdout w ++ out ++ [saved_line log_path] |})
          end
      end
  end.
Proof.
  unfold main. rewrite bind_run. unfold path_exists. cbv beta iota.
  destruct (files w !! log_path) as [[content|]|] eqn:Hp.
  - rewrite bool_decide_eq_true_2 by eauto. cbn [negb].
    rewrite bind_run. unfold parse_auth_log. rewrite bind_run.
    unfold read_lines. rewrite Hp. cbv beta iota. unfold mret, M_ret.
    destruct (scan (file_lines [] content)) as [F S].
    rewrite bind_run, print_run. rewrite bind_run, print_attempts_spec.
    rewrite bind_run, print_run. rewrite bind_run, print_attempts_spec.
    rewrite !with_stdout_app. fold (report F S).
    fold (failed_file log_path) (success_file log_path).
    rewrite bind_run, write_text_run. cbn [files with_stdout].
    assert (Hne := output_files_differ log_path).
    destruct (files w !! failed_file log_path) as [[c1|]|] eqn:Hf; [|done|].
    + rewrite bind_run, write_text_run. cbn [files stdout].
      rewrite lookup_insert_ne by done.
      destruct (files w !! success_file log_path) as [[c2|]|]; [|done|].
      * rewrite print_run. unfold with_stdout. cbn [files stdout].
        by rewrite <-(assoc_L (++)).
      * rewrite print_run. unfold with_stdout. cbn [files stdout].
        by rewrite <-(assoc_L (++)).
    + rewrite bind_run, write_text_run. cbn [files stdout].
      rewrite lookup_insert_ne by done.
      destruct (files w !! success_file log_path) as [[c2|]|]; [|done|].
      * rewrite print_run. unfold with_stdout. cbn [files stdout].
        by rewrite <-(assoc_L (++)).
      * rewrite print_run. unfold with_stdout. cbn [files stdout].
        by rewrite <-(assoc_L (++)).
  - rewrite bool_decide_eq_true_2 by eauto. cbn [negb].
    rewrite bind_run. unfold parse_auth_log. rewrite bind_run.
    unfold read_lines. by rewrite Hp.
  - rewrite bool_decide_eq_false_2 by (by intros [??]). cbn [negb].
    by rewrite print_run.
Qed.

Lemma scan_no_match lines :
  (∀ line, line ∈ lines →
     search failed_pattern line = None ∧ search success_pattern line = None) →
  scan lines = ([], []).
Proof.
  intros Hnone. rewrite scan_omap.
  induction lines as [|line lines IH]; [done|].
  destruct (Hnone line) as [Hf Hs]; [by left|].
  cbn [omap list_omap]. unfold failed_of_line at 1, successful_of_line at 1.
  rewrite Hf, Hs. simpl. apply IH. intros l Hl. apply Hnone. by right.
Qed.

(** C5: when no line of the log matches either pattern the scan returns two
    empty lists, and [main] runs to its end without raising and leaves
    both output files holding the text of the empty array (the two paths
    not being directories). *)
Theorem no_match_empty_outputs :
  (∀ lines,
     (∀ line, line ∈ lines →
        search failed_pattern line = None ∧ search success_pattern line = None) →
     scan lines = ([], []))
  ∧ (∀ log_path content w,
     files w !! log_path = Some (File content) →
     (∀ line, line ∈ file_lines [] content →
        search failed_pattern line = None ∧ search success_pattern line = None) →
     files w !! failed_file log_path ≠ Some Dir →
     files w !! success_file log_path ≠ Some Dir →
     ∃ w', main log_path w = (inr tt, w')
       ∧ files w' !! failed_file log_path = Some (File (str "[]"))
       ∧ files w' !! success_file log_path = Some (File (str "[]"))).
Proof.
  split; [apply scan_no_match|].
  intros log_path content w Hp Hnone Hf Hs.
  rewrite main_spec, Hp, (scan_no_match _ Hnone).
  assert (Hne := output_files_differ log_path).
  destruct (files w !! failed_file log_path) as [[c1|]|]; [|done|];
    (destruct (files w !! success_file log_path) as [[c2|]|]; [|done|]);
    eexists; (split; [reflexivity|]); cbn [files];
    by rewrite lookup_insert_eq, lookup_insert_ne, lookup_insert_eq.
Qed.

(** C6: when the path of the log names nothing, [main] prints one line
    that says so and returns normally; nothing is read and no file is
    written. *)
Theorem missing_log_reported log_path w :
  files w !! log_path = None →
  main log_path w
  = (inr tt,
     {| files := files w;
        stdout := stdout w
                  ++ [str "Error: Log file does not exist: " ++ path_str log_path] |}).
Proof. intros Hp. by rewrite main_spec, Hp. Qed.

(** C9: the scan reads the log and changes nothing, and its result depends
    on the contents of the log only; so a second run of the program over
    a log the first run left unchanged ends the same way, prints the same
    lines and leaves every file as the first run left it. *)
Theorem scan_is_deterministic :
  (∀ log_path w, (parse_auth_log log_path w).2 = w)
  ∧ (∀ log_path w1 w2,
     files w1 !! log_path = files w2 !! log_path →
     (parse_auth_log log_path w1).1 = (parse_auth_log log_path w2).1)
  ∧ (∀ log_path w r w',
     main log_path w = (r, w') →
     files w' !! log_path = files w !! log_path →
     ∃ out, stdout w' = stdout w ++ out
       ∧ main log_path w' = (r, {| files := files w'; stdout := stdout w' ++ out |})).
Proof.
  split_and!.
  - intros log_path w. unfold parse_auth_log. rewrite bind_run. unfold read_lines.
    by destruct (files w !! log_path) as [[c|]|].
  - intros log_path w1 w2 Heq. unfold parse_auth_log. rewrite !bind_run.
    unfold read_lines. rewrite Heq.
    by destruct (files w2 !! log_path) as [[c|]|].
  - intros log_path w r w' Hmain Hsame.
    assert (Hne := output_files_differ log_path).
    rewrite main_spec in Hmain. rewrite main_spec, Hsame.
    destruct (files w !! log_path) as [[content|]|] eqn:Hp.
    + destruct (scan (file_lines [] content)) as [F S].
      cbv zeta in Hmain |- *.
      generalize dependent (report F S). intros out.
      generalize (saved_line log_path). intros final.
      generalize dependent (json_dump F). intros jf.
      generalize dependent (json_dump S). intros js.
      generalize dependent (failed_file log_path). intros ff.
      generalize dependent (success_file log_path). intros sf.
      intros Hne Hmain.
      destruct (files w !! ff) as [[c1|]|] eqn:Hf.
      * destruct (files w !! sf) as [[c2|]|] eqn:Hs; simplify_eq; cbn [files stdout].
        -- exists (out ++ [final]). split; [done|].
           rewrite lookup_insert_ne, lookup_insert_eq, lookup_insert_eq by done.
           do 2 f_equal. apply map_eq. intros p.
           destruct (decide (p = sf)), (decide (p = ff)); by simplify_map_eq.
        -- exists out. split; [done|].
           rewrite lookup_insert_eq, lookup_insert_ne, Hs by done.
           by rewrite insert_insert_eq.
        -- exists (out ++ [final]). split; [done|].
           rewrite lookup_insert_ne, lookup_insert_eq, lookup_insert_eq by done.
           do 2 f_equal. apply map_eq. intros p.
           destruct (decide (p = sf)), (decide (p = ff)); by simplify_map_eq.
      * simplify_eq. cbn [files stdout with_stdout]. rewrite Hf. by exists out.
      * destruct (files w !! sf) as [[c2|]|] eqn:Hs; simplify_eq; cbn [files stdout].
        -- exists (out ++ [final]). split; [done|].
           rewrite lookup_insert_ne, lookup_insert_eq, lookup_insert_eq by done.
           do 2 f_equal. apply map_eq. intros p.
           destruct (decide (p = sf)), (decide (p = ff)); by simplify_map_eq.
        -- exists out. split; [done|].
           rewrite lookup_insert_eq, lookup_insert_ne, Hs by done.
           by rewrite insert_insert_eq.
        -- exists (out ++ [final]). split; [done|].
           rewrite lookup_insert_ne, lookup_insert_eq, lookup_insert_eq by done.
           do 2 f_equal. apply map_eq. intros p.
           destruct (decide (p = sf)), (decide (p = ff)); by simplify_map_eq.
    + simplify_eq. exists []. rewrite !(right_id_L [] (++)). by destruct w'.
    + simplify_eq. cbn [with_stdout files stdout]. by eexists.
Qed.

End ProgramFacts.

(** * What the matcher captures on a login text *)

Section Captures.
Context {U : UnicodeTables}.

(** A greedy [+] followed by a character outside its set takes the whole
    run when the rest of the pattern then succeeds. *)
Lemma plus_set_greedy {A} p m rest (k : text → option A) x :
  run p m → (∀ c, head rest = Some c → p c = false) →
  k rest = Some x → plus_set p (m ++ rest) k = Some x.
Proof.
  intros [Hne Hall] Hrest Hk. induction Hall as [|c m Hc Hall IH]; [done|].
  simpl. rewrite Hc. destruct m as [|c' m].
  - simpl. destruct rest as [|c' rest]; simpl; [done|].
    by rewrite (Hrest c' eq_refl).
  - by rewrite IH.
Qed.

Lemma rmatch_lit_app {A} l r s g (k : text → groups → option A) :
  rmatch (Cat (Lit l) r) (l ++ s) g k = rmatch r s g k.
Proof. simpl. by rewrite strip_prefix_app. Qed.

Lemma rmatch_lit_end {A} l s g (k : text → groups → option A) :
  rmatch (Lit l) (l ++ s) g k = k s g.
Proof. simpl. by rewrite strip_prefix_app. Qed.

Lemma rmatch_plus_greedy {A} p r m rest g (k : text → groups → option A) x :
  run p m → (∀ c, head rest = Some c → p c = false) →
  rmatch r rest g k = Some x →
  rmatch (Cat (Plus p) r) (m ++ rest) g k = Some x.
Proof. intros Hm Hrest Hk. simpl. by apply plus_set_greedy. Qed.

Lemma rmatch_group_plus_greedy {A} n p r m rest g (k : text → groups → option A) x :
  run p m → (∀ c, head rest = Some c → p c = false) →
  rmatch r rest (<[n := m]> g) k = Some x →
  rmatch (Cat (Group n (Plus p)) r) (m ++ rest) g k = Some x.
Proof.
  intros Hm Hrest Hk. simpl. apply plus_set_greedy; [done..|].
  by rewrite take_matched.
Qed.

Lemma rmatch_opt_taken {A} n l r s g (k : text → groups → option A) x :
  rmatch r s (<[n := l]> g) k = Some x →
  rmatch (Cat (Opt (Group n (Lit l))) r) (l ++ s) g k = Some x.
Proof. intros Hk. simpl. by rewrite strip_prefix_app, take_matched, Hk. Qed.

Lemma rmatch_opt_skipped {A} n l r s g (k : text → groups → option A) :
  strip_prefix l s = None →
  rmatch (Cat (Opt (Group n (Lit l))) r) s g k = rmatch r s g k.
Proof. intros Hl. simpl. by rewrite Hl. Qed.

Lemma strip_prefix_None l s : ¬ l `prefix_of` s → strip_prefix l s = None.
Proof.
  intros Hl. destruct (strip_prefix l s) as [s'|] eqn:Hs; [|done].
  apply strip_prefix_Some in Hs as ->. destruct Hl. by exists s'.
Qed.

Lemma search_at_head r s g : match_at r s = Some g → search r s = Some g.
Proof. intros Hg. destruct s; simpl; by rewrite Hg. Qed.

Lemma head_lit_app (l rest : text) c :
  head l = Some c → head (l ++ rest) = Some c.
Proof. by destruct l. Qed.

Ltac head_of_lit :=
  let c := fresh "c" in let Hc := fresh "Hc" in
  intros c Hc; erewrite head_lit_app in Hc by (vm_compute; reflexivity);
  injection Hc as <-; reflexivity.

Lemma match_at_failed_text o u i d post :
  (o = [] ∨ o = str "invalid user ") →
  run is_word u → run is_digit_or_dot i → run is_digit d →
  match_at failed_pattern (failed_text o u i d ++ post) = Some (failed_groups o u i d).
Proof.
  intros Ho Hu Hi Hd. unfold match_at. cbn [rmatch].
  set (K := λ (s' : text) (g' : groups), Some _).
  assert (HK : ∀ g, K post g = Some (<[0%nat := failed_text o u i d]> g)).
  { intros g. unfold K. by rewrite take_matched. }
  clearbody K. unfold failed_pattern, failed_text.
  rewrite <-!(assoc_L (++)), rmatch_lit_app.
  assert (Hskip : ∀ g : groups,
    rmatch (Cat (Group 2 (Plus is_word))
             (Cat (Lit (str " from "))
             (Cat (Group 3 (Plus is_digit_or_dot))
             (Cat (Lit (str " port "))
             (Cat (Plus is_digit) (Lit (str " ssh2")))))))
      (u ++ str " from " ++ i ++ str " port " ++ d ++ str " ssh2" ++ post) g K
    = Some (<[0%nat := failed_text o u i d]> (<[3%nat := i]> (<[2%nat := u]> g)))).
  { intros g.
    apply rmatch_group_plus_greedy; [done | head_of_lit |].
    rewrite rmatch_lit_app.
    apply rmatch_group_plus_greedy; [done | head_of_lit |].
    rewrite rmatch_lit_app.
    apply rmatch_plus_greedy; [done | head_of_lit |].
    by rewrite rmatch_lit_end. }
  unfold failed_groups. destruct Ho as [->| ->].
  - rewrite (left_id_L [] (++)), rmatch_opt_skipped; [by apply Hskip|].
    by apply strip_prefix_None, word_run_not_invalid_user.
  - apply rmatch_opt_taken. by apply Hskip.
Qed.

Lemma match_at_success_text u i d post :
  run is_word u → run is_digit_or_dot i → run is_digit d →
  match_at success_pattern (success_text u i d ++ post) = Some (success_groups u i d).
Proof.
  intros Hu Hi Hd. unfold match_at. cbn [rmatch].
  set (K := λ (s' : text) (g' : groups), Some _).
  assert (HK : ∀ g, K post g = Some (<[0%nat := success_text u i d]> g)).
  { intros g. unfold K. by rewrite take_matched. }
  clearbody K. unfold success_pattern, success_text, success_groups.
  rewrite <-!(assoc_L (++)), rmatch_lit_app.
  apply rmatch_group_plus_greedy; [done | head_of_lit |].
  rewrite rmatch_lit_app.
  apply rmatch_group_plus_greedy; [done | head_of_lit |].
  rewrite rmatch_lit_app.
  apply rmatch_plus_greedy; [done | head_of_lit |].
  by rewrite rmatch_lit_end.
Qed.

Lemma search_failed_text o u i d post :
  (o = [] ∨ o = str "invalid user ") →
  run is_word u → run is_digit_or_dot i → run is_digit d →
  search failed_pattern (failed_text o u i d ++ post) = Some (failed_groups o u i d).
Proof. intros. by apply search_at_head, match_at_failed_text. Qed.

Lemma search_success_text u i d post :
  run is_word u → run is_digit_or_dot i → run is_digit d →
  search success_pattern (success_text u i d ++ post) = Some (success_groups u i d).
Proof. intros. by apply search_at_head, match_at_success_text. Qed.

(** C7: the ip is any non-empty run of digits and dots; no check is made
    that it is an address.  A login text with such a run in the place of
    the ip is matched, by either pattern, and the run is what is
    captured; the failed login is recorded with it.  [999.999.999.999] is
    such a run, and the line that has it is recorded with it. *)
Theorem ip_not_validated :
  (∀ o u i d post failed_logins successful_logins,
     (o = [] ∨ o = str "invalid user ") →
     run is_word u → run is_digit_or_dot i → run is_digit d →
     (∃ m, search failed_pattern (failed_text o u i d ++ post) = Some m
           ∧ group m 3 = Some i)
     ∧ scan_line (failed_logins, successful_logins) (failed_text o u i d ++ post)
       = (failed_logins
            ++ [ {| user := Some u; ip := Some i;
                    raw := strip (failed_text o u i d ++ post) |} ],
          successful_logins))
  ∧ (∀ u i d post,
     run is_word u → run is_digit_or_dot i → run is_digit d →
     ∃ m, search success_pattern (success_text u i d ++ post) = Some m
          ∧ group m 2 = Some i)
  ∧ run is_digit_or_dot (str "999.999.999.999")
  ∧ scan [str "Failed password for root from 999.999.999.999 port 22 ssh2"]
    = ([ {| user := Some (str "root"); ip := Some (str "999.999.999.999");
            raw := str "Failed password for root from 999.999.999.999 port 22 ssh2" |} ],
       []).
Proof.
  split_and!.
  - intros o u i d post F S Ho Hu Hi Hd.
    assert (Hm := search_failed_text o u i d post Ho Hu Hi Hd). split.
    + eexists. split; [exact Hm|]. unfold group, failed_groups. by simplify_map_eq.
    + unfold scan_line. rewrite Hm. unfold group, failed_groups.
      by simplify_map_eq.
  - intros u i d post Hu Hi Hd. eexists. split; [by apply search_success_text|].
    unfold group, success_groups. by simplify_map_eq.
  - split; [by vm_compute | vm_compute; repeat constructor].
  - vm_compute. reflexivity.
Qed.

End Captures.

(** * Where a match can start *)

Section Positions.
Context {U : UnicodeTables}.

Lemma match_at_failed_head s g :
  match_at failed_pattern s = Some g → head s = Some 70.
Proof.
  intros (m & s' & g' & -> & Hm & _)%match_at_sound.
  apply failed_pattern_inv in Hm as (o & u & i & d & -> & _).
  unfold failed_text. rewrite <-(assoc_L (++)). by apply head_lit_app.
Qed.

Lemma match_at_success_head s g :
  match_at success_pattern s = Some g → head s = Some 65.
Proof.
  intros (m & s' & g' & -> & Hm & _)%match_at_sound.
  apply success_pattern_inv in Hm as (u & i & d & -> & _).
  unfold success_text. rewrite <-(assoc_L (++)). by apply head_lit_app.
Qed.

(** Characters that cannot start a match are passed over. *)
Lemma search_skip r (first : N) a b :
  (∀ s g, match_at r s = Some g → head s = Some first) →
  Forall (λ c, c ≠ first) a → search r (a ++ b) = search r b.
Proof.
  intros Hfirst Ha. induction Ha as [|c a Hc Ha IH]; [done|].
  simpl. destruct (match_at r (c :: a ++ b)) as [g|] eqn:Hat; [|done].
  apply Hfirst in Hat. simpl in Hat. congruence.
Qed.

(** Positions at which the pattern is known not to match are passed over. *)
Lemma search_skip_positions r pre s :
  (∀ j, (j < length pre)%nat → match_at r (drop j (pre ++ s)) = None) →
  search r (pre ++ s) = search r s.
Proof.
  induction pre as [|c pre IH]; intros Hpre; [done|].
  assert (H0 := Hpre 0%nat). simpl in H0. simpl. rewrite H0 by lia. apply IH.
  intros j Hj. apply (Hpre (S j)). simpl. lia.
Qed.

(** Two ways of cutting one text at a marked character. *)
Lemma app_cons_cmp {A} (a b : list A) x y X Y :
  a ++ x :: X = b ++ y :: Y →
  (a = b ∧ x = y ∧ X = Y) ∨ (∃ t, b = a ++ x :: t) ∨ (∃ t, a = b ++ y :: t).
Proof.
  revert b. induction a as [|c a IH]; intros [|c' b]; simpl; intros [= ? ?]; subst.
  - by left.
  - right; left. eauto.
  - right; right. eauto.
  - destruct (IH b) as [(-> & -> & ->)|[[t ->]|[t ->]]]; [done|..]; eauto.
Qed.

Lemma word_chars (l : text) c :
  Forall (λ x, is_word x = true) l → c ∈ l → is_word c = true.
Proof. rewrite Forall_forall. auto. Qed.

Ltac lit_forall := apply (bool_decide_unpack _); vm_compute; exact I.

(** A name without a space, followed by a character that is not a word
    character and by [ from ], does not start with a word followed by a
    space. *)
Lemma lit_not_in_name (w lit : text) l0 a c Y Z :
  Forall (λ x, is_word x = true) w → head lit = Some l0 → l0 ≠ 32 →
  Forall (λ x, x ≠ 32) a → is_word c = false →
  a ++ c :: str " from " ++ Y ≠ w ++ 32 :: lit ++ Z.
Proof.
  intros Hw Hlit Hl0 Ha Hc Heq.
  apply app_cons_cmp in Heq as [(_ & _ & HY)|[[t Ht]|[t ->]]].
  - apply (f_equal head) in HY.
    rewrite (head_lit_app _ _ 32), (head_lit_app _ _ l0) in HY by done.
    congruence.
  - assert (is_word c = true); [|congruence].
    apply (word_chars w); [done|]. rewrite Ht. set_solver.
  - apply Forall_app in Ha as [_ Ha]. by inversion Ha.
Qed.

(** Nor is it a user name followed by [ from ]. *)
Lemma name_not_user u a c Y Z :
  run is_word u → Forall (λ x, x ≠ 32) a → is_word c = false →
  a ++ c :: str " from " ++ Y ≠ u ++ str " from " ++ Z.
Proof.
  intros [_ Hu] Ha Hc Heq.
  change (u ++ str " from " ++ Z) with (u ++ 32 :: str "from " ++ Z) in Heq.
  by apply (lit_not_in_name _ _ 102) in Heq.
Qed.

(** No match of either pattern starts in a name that has no space and is
    followed by a character that is not a word character. *)
Lemma name_no_match_failed a c Y :
  Forall (λ x, x ≠ 32) a → is_word c = false →
  match_at failed_pattern (a ++ c :: str " from " ++ Y) = None.
Proof.
  intros Ha Hc. destruct (match_at failed_pattern _) as [g|] eqn:Hat; [|done].
  exfalso. apply match_at_sound in Hat as (m & s' & g' & Heq & Hm & _).
  apply failed_pattern_inv in Hm as (o & u & i & d & -> & _).
  unfold failed_text in Heq. rewrite <-!(assoc_L (++)) in Heq.
  change (str "Failed password for " ++ ?X)
    with (str "Failed" ++ 32 :: str "password for " ++ X) in Heq.
  eapply lit_not_in_name in Heq; [done | lit_forall | by vm_compute | done..].
Qed.

Lemma name_no_match_success a c Y :
  Forall (λ x, x ≠ 32) a → is_word c = false →
  match_at success_pattern (a ++ c :: str " from " ++ Y) = None.
Proof.
  intros Ha Hc. destruct (match_at success_pattern _) as [g|] eqn:Hat; [|done].
  exfalso. apply match_at_sound in Hat as (m & s' & g' & Heq & Hm & _).
  apply success_pattern_inv in Hm as (u & i & d & -> & _).
  unfold success_text in Heq. rewrite <-!(assoc_L (++)) in Heq.
  change (str "Accepted password for " ++ ?X)
    with (str "Accepted" ++ 32 :: str "password for " ++ X) in Heq.
  eapply lit_not_in_name in Heq; [done | lit_forall | by vm_compute | done..].
Qed.

(** The failed pattern does not match at a login text whose user name ends
    with a character that is not a word character. *)
Lemma bad_name_no_match_failed o n c Y :
  (o = [] ∨ o = str "invalid user ") →
  Forall (λ x, x ≠ 32) n → is_word c = false →
  match_at failed_pattern
    (str "Failed password for " ++ o ++ n ++ c :: str " from " ++ Y) = None.
Proof.
  intros Ho Hn Hc. destruct (match_at failed_pattern _) as [g|] eqn:Hat; [|done].
  exfalso. apply match_at_sound in Hat as (m & s' & g' & Heq & Hm & _).
  apply failed_pattern_inv in Hm as (o' & u & i & d & -> & Ho' & Hu & _).
  unfold failed_text in Heq. rewrite <-!(assoc_L (++)) in Heq.
  apply (inj (app _)) in Heq.
  destruct Ho as [->| ->], Ho' as [->| ->].
  - by apply name_not_user in Heq.
  - change (str "invalid user " ++ ?X)
      with (str "invalid" ++ 32 :: str "user " ++ X) in Heq.
    eapply lit_not_in_name in Heq; [done | lit_forall | by vm_compute | done..].
  - eapply word_run_not_invalid_user; [exact Hu|]. eexists. symmetry. exact Heq.
  - apply (inj (app _)) in Heq. by apply name_not_user in Heq.
Qed.

Lemma bad_name_no_match_success n c Y :
  Forall (λ x, x ≠ 32) n → is_word c = false →
  match_at success_pattern
    (str "Accepted password for " ++ n ++ c :: str " from " ++ Y) = None.
Proof.
  intros Hn Hc. destruct (match_at success_pattern _) as [g|] eqn:Hat; [|done].
  exfalso. apply match_at_sound in Hat as (m & s' & g' & Heq & Hm & _).
  apply success_pattern_inv in Hm as (u & i & d & -> & Hu & _).
  unfold success_text in Heq. rewrite <-!(assoc_L (++)) in Heq.
  apply (inj (app _)) in Heq. by apply name_not_user in Heq.
Qed.

Lemma search_step r s :
  match_at r s = None → search r s = search r (tail s).
Proof. intros Hat. destruct s; simpl; by rewrite Hat. Qed.

(** After a name that ends with a character that is not a word character,
    the rest of a login text is passed over. *)
Lemma search_login_tail r (first : N) n c i d post :
  (∀ s g, match_at r s = Some g → head s = Some first) →
  (∀ a c Y, Forall (λ x, x ≠ 32) a → is_word c = false →
     match_at r (a ++ c :: str " from " ++ Y) = None) →
  first = 65 ∨ first = 70 →
  Forall (λ x, x ≠ 32) n → is_word c = false →
  Forall (λ x, is_digit_or_dot x = true) i →
  Forall (λ x, is_digit x = true) d →
  search r (n ++ c :: str " from " ++ i ++ str " port " ++ d ++ str " ssh2" ++ post)
  = search r post.
Proof.
  intros Hfirst Hname Hf Hn Hc Hi Hd.
  assert (Hskip := search_skip r first).
  induction Hn as [|x n Hx Hn IH].
  - change ([] ++ c :: ?X) with ([c] ++ X).
    rewrite !Hskip; try done.
    + destruct Hf as [->| ->]; lit_forall.
    + eapply Forall_impl; [exact Hd|]. intros x Hx ->.
      by destruct Hf as [->| ->].
    + destruct Hf as [->| ->]; lit_forall.
    + eapply Forall_impl; [exact Hi|]. intros x Hx ->.
      by destruct Hf as [->| ->].
    + destruct Hf as [->| ->]; lit_forall.
    + repeat constructor. intros ->. by destruct Hf as [->| ->].
  - rewrite search_step by (apply (Hname (x :: n)); [by constructor | done]).
    apply IH.
Qed.

Lemma bad_failed_text o n c i d post :
  failed_text o (n ++ [c]) i d ++ post
  = str "Failed password for " ++ o ++ n ++ c :: str " from " ++ i
    ++ str " port " ++ d ++ str " ssh2" ++ post.
Proof. unfold failed_text. by rewrite <-!(assoc_L (++)). Qed.

Lemma bad_success_text n c i d post :
  success_text (n ++ [c]) i d ++ post
  = str "Accepted password for " ++ n ++ c :: str " from " ++ i
    ++ str " port " ++ d ++ str " ssh2" ++ post.
Proof. unfold success_text. by rewrite <-!(assoc_L (++)). Qed.

Section BadName.
Variables (o n : text) (c : N) (i d post : text).
Hypothesis Ho : o = [] ∨ o = str "invalid user ".
Hypothesis Hn : Forall (λ x, x ≠ 32) n.
Hypothesis Hc : is_word c = false.
Hypothesis Hi : Forall (λ x, is_digit_or_dot x = true) i.
Hypothesis Hd : Forall (λ x, is_digit x = true) d.

Lemma search_failed_bad_failed :
  search failed_pattern (failed_text o (n ++ [c]) i d ++ post)
  = search failed_pattern post.
Proof.
  rewrite bad_failed_text, search_step by by apply bad_name_no_match_failed.
  change (tail (str "Failed password for " ++ ?X))
    with (str "ailed password for " ++ X).
  rewrite (search_skip _ 70) by (apply match_at_failed_head || lit_forall).
  assert (search failed_pattern (o ++ n ++ c :: str " from " ++ i
            ++ str " port " ++ d ++ str " ssh2" ++ post)
          = search failed_pattern (n ++ c :: str " from " ++ i
            ++ str " port " ++ d ++ str " ssh2" ++ post)) as ->.
  { destruct Ho as [->| ->]; [done|].
    by rewrite (search_skip _ 70) by (apply match_at_failed_head || lit_forall). }
  apply (search_login_tail _ 70);
    [apply match_at_failed_head | apply name_no_match_failed | by right | done..].
Qed.

Lemma search_success_bad_failed :
  search success_pattern (failed_text o (n ++ [c]) i d ++ post)
  = search success_pattern post.
Proof.
  rewrite bad_failed_text.
  rewrite (search_skip _ 65) by (apply match_at_success_head || lit_forall).
  assert (search success_pattern (o ++ n ++ c :: str " from " ++ i
            ++ str " port " ++ d ++ str " ssh2" ++ post)
          = search success_pattern (n ++ c :: str " from " ++ i
            ++ str " port " ++ d ++ str " ssh2" ++ post)) as ->.
  { destruct Ho as [->| ->]; [done|].
    by rewrite (search_skip _ 65) by (apply match_at_success_head || lit_forall). }
  apply (search_login_tail _ 65);
    [apply match_at_success_head | apply name_no_match_success | by left | done..].
Qed.

Lemma search_failed_bad_success :
  search failed_pattern (success_text (n ++ [c]) i d ++ post)
  = search failed_pattern post.
Proof.
  rewrite bad_success_text.
  rewrite (search_skip _ 70) by (apply match_at_failed_head || lit_forall).
  apply (search_login_tail _ 70);
    [apply match_at_failed_head | apply name_no_match_failed | by right | done..].
Qed.

Lemma search_success_bad_success :
  search success_pattern (success_text (n ++ [c]) i d ++ post)
  = search success_pattern post.
Proof.
  rewrite bad_success_text, search_step by by apply bad_name_no_match_success.
  change (tail (str "Accepted password for " ++ ?X))
    with (str "ccepted password for " ++ X).
  rewrite (search_skip _ 65) by (apply match_at_success_head || lit_forall).
  apply (search_login_tail _ 65);
    [apply match_at_success_head | apply name_no_match_success | by left | done..].
Qed.

End BadName.

(** C8, as the code has it: the two patterns never match at one position of
    a text, and no text is a match of both; a line can still hold a match
    of each at two positions, and such a line goes to the failed list
    only. *)
Theorem patterns_disjoint_at_a_position :
  (∀ s, ¬ (is_Some (match_at failed_pattern s)
           ∧ is_Some (match_at success_pattern s)))
  ∧ (∀ m g1 g1' g2 g2',
     matches failed_pattern m g1 g1' → ¬ matches success_pattern m g2 g2')
  ∧ (∀ line failed_logins successful_logins,
     is_Some (search failed_pattern line) →
     is_Some (search success_pattern line) →
     ∃ r, scan_line (failed_logins, successful_logins) line
          = (failed_logins ++ [r], successful_logins)).
Proof.
  split_and!.
  - intros s [[g1 H1%match_at_failed_head] [g2 H2%match_at_success_head]].
    congruence.
  - intros m g1 g1' g2 g2' Hf Hs.
    apply failed_pattern_inv in Hf as (o & u & i & d & -> & _).
    apply success_pattern_inv in Hs as (u' & i' & d' & Heq & _).
    apply (f_equal head) in Heq. unfold failed_text, success_text in Heq.
    rewrite (head_lit_app _ _ 70), (head_lit_app _ _ 65) in Heq by done.
    congruence.
  - intros line F S [m Hm] _. unfold scan_line. rewrite Hm. eauto.
Qed.

(** C10: the patterns are looked for anywhere in the line.  A line that has
    the text of a failed login in it adds a record to the failed list; a
    line that has the text of a successful login in it adds a record to
    one of the two lists, whatever comes before and after the text.  A
    login text whose user name has no space and ends with a character that
    is not a word character is matched by neither pattern where it
    stands, and a line made of such a text is skipped, the scan being
    left as it was, when nothing else in the line matches. *)
Theorem patterns_match_inside_a_line :
  (∀ pre o u i d post failed_logins successful_logins,
     (o = [] ∨ o = str "invalid user ") →
     run is_word u → run is_digit_or_dot i → run is_digit d →
     ∃ r, raw r = strip (pre ++ failed_text o u i d ++ post)
       ∧ scan_line (failed_logins, successful_logins)
           (pre ++ failed_text o u i d ++ post)
         = (failed_logins ++ [r], successful_logins))
  ∧ (∀ pre u i d post failed_logins successful_logins,
     run is_word u → run is_digit_or_dot i → run is_digit d →
     ∃ r, raw r = strip (pre ++ success_text u i d ++ post)
       ∧ (scan_line (failed_logins, successful_logins)
            (pre ++ success_text u i d ++ post)
          = (failed_logins ++ [r], successful_logins)
          ∨ scan_line (failed_logins, successful_logins)
              (pre ++ success_text u i d ++ post)
            = (failed_logins, successful_logins ++ [r])))
  ∧ scan [str "Nov  4 10:00:00 host sshd[123]: Failed password for bob from 10.0.0.5 port 22 ssh2 [preauth]" ++ [10];
          str "Nov  4 10:00:07 host sshd[123]: Accepted password for alice from 192.168.1.1 port 22 ssh2: RSA" ++ [10]]
    = ([ {| user := Some (str "bob"); ip := Some (str "10.0.0.5");
            raw := str "Nov  4 10:00:00 host sshd[123]: Failed password for bob from 10.0.0.5 port 22 ssh2 [preauth]" |} ],
       [ {| user := Some (str "alice"); ip := Some (str "192.168.1.1");
            raw := str "Nov  4 10:00:07 host sshd[123]: Accepted password for alice from 192.168.1.1 port 22 ssh2: RSA" |} ])
  ∧ (∀ o n c Y,
     (o = [] ∨ o = str "invalid user ") →
     Forall (λ x, x ≠ 32) n → is_word c = false →
     match_at failed_pattern
       (str "Failed password for " ++ o ++ n ++ c :: str " from " ++ Y) = None
     ∧ match_at success_pattern
         (str "Accepted password for " ++ n ++ c :: str " from " ++ Y) = None)
  ∧ (∀ pre o n c i d post acc login,
     (o = [] ∨ o = str "invalid user ") →
     Forall (λ x, x ≠ 32) n → is_word c = false →
     run is_digit_or_dot i → run is_digit d →
     login = failed_text o (n ++ [c]) i d ∨ login = success_text (n ++ [c]) i d →
     (∀ j, (j < length pre)%nat →
        match_at failed_pattern (drop j (pre ++ login ++ post)) = None
        ∧ match_at success_pattern (drop j (pre ++ login ++ post)) = None) →
     search failed_pattern post = None →
     search success_pattern post = None →
     scan_line acc (pre ++ login ++ post) = acc)
  ∧ scan [str "Failed password for bob- from 10.0.0.5 port 22 ssh2" ++ [10];
          str "Accepted password for my-user from 10.0.0.5 port 22 ssh2" ++ [10]]
    = ([], []).
Proof.
  split_and!.
  - intros pre o u i d post F S Ho Hu Hi Hd.
    destruct (failed_pattern_intro o u i d Ho Hu Hi Hd) as [g' Hm].
    destruct (search_complete _ pre _ post _ _ Hm) as [m Hs].
    eexists. split; [|unfold scan_line; by rewrite Hs]. done.
  - intros pre u i d post F S Hu Hi Hd.
    destruct (success_pattern_intro u i d Hu Hi Hd) as [g' Hm].
    destruct (search_complete _ pre _ post _ _ Hm) as [m Hs].
    unfold scan_line. rewrite Hs.
    destruct (search failed_pattern _) as [mf|].
    + eexists. split; [|left; reflexivity]. done.
    + eexists. split; [|right; reflexivity]. done.
  - vm_compute. reflexivity.
  - intros o n c Y Ho Hn Hc. split.
    + by apply bad_name_no_match_failed.
    + by apply bad_name_no_match_success.
  - intros pre o n c i d post [F S] login Ho Hn Hc [_ Hi] [_ Hd] Hlogin Hpre Hpf Hps.
    unfold scan_line.
    rewrite (search_skip_positions failed_pattern),
      (search_skip_positions success_pattern) by (intros j Hj; by apply Hpre).
    destruct Hlogin as [->| ->].
    + rewrite search_failed_bad_failed, search_success_bad_failed by done.
      by rewrite Hpf, Hps.
    + rewrite search_failed_bad_success, search_success_bad_success by done.
      by rewrite Hpf, Hps.
  - vm_compute. reflexivity.
Qed.

End Positions.

(** C8 as it is stated does not hold: [both_line] is a line that the two
    patterns both match. *)
Lemma patterns_not_disjoint :
  ¬ (∀ line : text,
       ¬ (is_Some (search (failed_pattern (U := ascii_tables)) line)
          ∧ is_Some (search (success_pattern (U := ascii_tables)) line))).
Proof. intros H. apply (H both_line). split; vm_compute; eauto. Qed.

(** * The properties at concrete inputs *)

(** The line of bob is matched by the failed pattern and is recorded once. *)
Lemma failed_line_recorded_witness :
  is_Some (search (failed_pattern (U := ascii_tables)) bob_line)
  ∧ ∃ u i,
      scan_line (U := ascii_tables) ([], []) bob_line
      = ([ {| user := Some u; ip := Some i;
              raw := strip (U := ascii_tables) bob_line |} ], []).
Proof.
  assert (is_Some (search (failed_pattern (U := ascii_tables)) bob_line)) as Hm
    by (vm_compute; eauto).
  split; [exact Hm|].
  destruct (proj1 (@failed_line_recorded ascii_tables) bob_line [] [] Hm)
    as (pre & o & u & i & d & post & _ & _ & _ & _ & _ & _ & Hscan).
  exists u, i. exact Hscan.
Defined.

(** The line of alice is matched by the successful pattern only and is recorded once. *)
Lemma successful_line_recorded_witness :
  search (failed_pattern (U := ascii_tables)) alice_line = None
  ∧ is_Some (search (success_pattern (U := ascii_tables)) alice_line)
  ∧ ∃ u i,
      scan_line (U := ascii_tables) ([], []) alice_line
      = ([], [ {| user := Some u; ip := Some i;
                  raw := strip (U := ascii_tables) alice_line |} ]).
Proof.
  assert (search (failed_pattern (U := ascii_tables)) alice_line = None) as Hf
    by (vm_compute; reflexivity).
  assert (is_Some (search (success_pattern (U := ascii_tables)) alice_line)) as Hm
    by (vm_compute; eauto).
  split; [exact Hf|]. split; [exact Hm|].
  destruct (proj1 (@successful_line_recorded ascii_tables) alice_line [] [] Hf Hm)
    as (pre & u & i & d & post & _ & _ & _ & _ & _ & Hscan).
  exists u, i. exact Hscan.
Defined.

(** [both_line] is recorded as failed and not as successful. *)
Lemma failed_match_excludes_success_witness :
  is_Some (search (failed_pattern (U := ascii_tables)) both_line)
  ∧ ∃ r, scan_line (U := ascii_tables) ([], []) both_line = ([] ++ [r], []).
Proof.
  assert (is_Some (search (failed_pattern (U := ascii_tables)) both_line)) as Hm
    by (vm_compute; eauto).
  split; [exact Hm|].
  exact (proj1 (@failed_match_excludes_success ascii_tables) both_line [] [] Hm).
Defined.

(** Three copies of the line of bob give three failed records. *)
Lemma scan_keeps_line_order_witness :
  is_Some (failed_of_line (U := ascii_tables) bob_line)
  ∧ length (scan (U := ascii_tables) (replicate 3 bob_line)).1 = 3%nat.
Proof.
  assert (is_Some (failed_of_line (U := ascii_tables) bob_line)) as Hm
    by (vm_compute; eauto).
  split; [exact Hm|].
  exact (proj2 (proj2 (@scan_keeps_line_order ascii_tables)) bob_line 3%nat Hm).
Defined.

(** On [quiet_world] the program writes two empty arrays. *)
Lemma no_match_empty_outputs_witness :
  ∃ w', main (U := ascii_tables) ["var"; "auth.log"]%string quiet_world = (inr tt, w')
    ∧ files w' !! failed_file ["var"; "auth.log"]%string = Some (File (str "[]"))
    ∧ files w' !! success_file ["var"; "auth.log"]%string = Some (File (str "[]")).
Proof.
  eapply (proj2 (@no_match_empty_outputs ascii_tables)).
  - vm_compute. reflexivity.
  - intros line Hin. apply list_elem_of_In in Hin. vm_compute in Hin.
    destruct Hin as [<-|[<-|[]]]; vm_compute; done.
  - vm_compute. discriminate.
  - vm_compute. discriminate.
Defined.

(** On an empty file system the program only reports the missing log. *)
Lemma missing_log_reported_witness :
  main (U := ascii_tables) ["missing.log"%string] {| files := ∅; stdout := [] |}
  = (inr tt,
     {| files := ∅;
        stdout := [] ++ [str "Error: Log file does not exist: "
                         ++ path_str ["missing.log"%string]] |}).
Proof.
  apply (@missing_log_reported ascii_tables ["missing.log"%string]
           {| files := ∅; stdout := [] |}).
  vm_compute. reflexivity.
Defined.

(** The run 999.999.999.999 is captured as the ip. *)
Lemma ip_not_validated_witness :
  ∃ m, search (failed_pattern (U := ascii_tables))
         (failed_text [] (str "root") (str "999.999.999.999") (str "22") ++ [10])
       = Some m
       ∧ group m 3 = Some (str "999.999.999.999").
Proof.
  eapply (proj1 (@ip_not_validated ascii_tables) [] (str "root")
            (str "999.999.999.999") (str "22") [10] [] []).
  - left. reflexivity.
  - split; [by vm_compute | apply (bool_decide_unpack _); vm_compute; exact I].
  - split; [by vm_compute | apply (bool_decide_unpack _); vm_compute; exact I].
  - split; [by vm_compute | apply (bool_decide_unpack _); vm_compute; exact I].
Defined.

(** [both_line] is matched by both patterns and recorded as failed only. *)
Lemma patterns_disjoint_at_a_position_witness :
  is_Some (search (failed_pattern (U := ascii_tables)) both_line)
  ∧ is_Some (search (success_pattern (U := ascii_tables)) both_line)
  ∧ ∃ r, scan_line (U := ascii_tables) ([], []) both_line = ([] ++ [r], []).
Proof.
  assert (is_Some (search (failed_pattern (U := ascii_tables)) both_line)) as Hf
    by (vm_compute; eauto).
  assert (is_Some (search (success_pattern (U := ascii_tables)) both_line)) as Hs
    by (vm_compute; eauto).
  split; [exact Hf|]. split; [exact Hs|].
  exact (proj2 (proj2 (@patterns_disjoint_at_a_position ascii_tables))
           both_line [] [] Hf Hs).
Defined.

(** A second run on [busy_world] repeats the first. *)
Lemma scan_is_deterministic_witness :
  let first := main (U := ascii_tables) ["var"; "auth.log"]%string busy_world in
  files first.2 !! ["var"; "auth.log"]%string
  = files busy_world !! ["var"; "auth.log"]%string
  ∧ ∃ out, stdout first.2 = stdout busy_world ++ out
      ∧ main (U := ascii_tables) ["var"; "auth.log"]%string first.2
        = (first.1, {| files := files first.2; stdout := stdout first.2 ++ out |}).
Proof.
  intros first.
  assert (files first.2 !! ["var"; "auth.log"]%string
          = files busy_world !! ["var"; "auth.log"]%string) as Hsame
    by (vm_compute; reflexivity).
  split; [exact Hsame|].
  apply (proj2 (proj2 (@scan_is_deterministic ascii_tables))
           ["var"; "auth.log"]%string busy_world first.1 first.2);
    [apply surjective_pairing | exact Hsame].
Defined.

(** The login of [bob-] is skipped. *)
Lemma patterns_match_inside_a_line_witness :
  scan_line (U := ascii_tables) ([], [])
    ([] ++ failed_text [] (str "bob" ++ [45]) (str "10.0.0.5") (str "22") ++ [10])
  = ([], []).
Proof.
  eapply (proj1 (proj2 (proj2 (proj2 (proj2 (@patterns_match_inside_a_line ascii_tables)))))
            [] [] (str "bob") 45 (str "10.0.0.5") (str "22") [10] ([], [])).
  - left. reflexivity.
  - apply (bool_decide_unpack _). vm_compute. exact I.
  - vm_compute. reflexivity.
  - split; [by vm_compute | apply (bool_decide_unpack _); vm_compute; exact I].
  - split; [by vm_compute | apply (bool_decide_unpack _); vm_compute; exact I].
  - left. reflexivity.
  - intros j Hj. simpl in Hj. lia.
  - vm_compute. reflexivity.
  - vm_compute. reflexivity.
Defined.

(** * More on the program: what it writes, and when it raises *)

Section ProgramOutcomes.
Context {U : UnicodeTables}.

Lemma main_on_file log_path content w :
  files w !! log_path = Some (File content) →
  files w !! failed_file log_path ≠ Some Dir →
  files w !! success_file log_path ≠ Some Dir →
  ∃ w', main log_path w = (inr tt, w')
    ∧ files w' !! failed_file log_path
      = Some (File (json_dump (scan (file_lines [] content)).1))
    ∧ files w' !! success_file log_path
      = Some (File (json_dump (scan (file_lines [] content)).2))
    ∧ (∀ q, q ≠ failed_file log_path → q ≠ success_file log_path →
         files w' !! q = files w !! q)
    ∧ stdout w'
      = stdout w
        ++ report (scan (file_lines [] content)).1 (scan (file_lines [] content)).2
        ++ [saved_line log_path].
Proof.
  intros Hp Hf Hs. rewrite main_spec, Hp.
  assert (Hne := output_files_differ log_path).
  destruct (scan (file_lines [] content)) as [F S]. cbn [fst snd].
  destruct (files w !! failed_file log_path) as [[c1|]|]; [|done|];
    (destruct (files w !! success_file log_path) as [[c2|]|]; [|done|]);
    eexists; (split; [reflexivity|]); cbn [files stdout];
    (split_and!;
      [by rewrite lookup_insert_ne, lookup_insert_eq
      |by rewrite lookup_insert_eq
      |intros q ??; by rewrite !lookup_insert_ne
      |done]).
Qed.

(** On a log that is a file, with output paths that are not directories,
    [main] returns normally; the two output files hold the JSON of the two
    lists of the scan, every other path is as it was, and the report and
    the closing line are printed after what was printed before. *)
Theorem main_writes_scan_results log_path content w :
  files w !! log_path = Some (File content) →
  files w !! failed_file log_path ≠ Some Dir →
  files w !! success_file log_path ≠ Some Dir →
  ∃ w', main log_path w = (inr tt, w')
    ∧ files w' !! failed_file log_path
      = Some (File (json_dump (scan (file_lines [] content)).1))
    ∧ files w' !! success_file log_path
      = Some (File (json_dump (scan (file_lines [] content)).2))
    ∧ (∀ q, q ≠ failed_file log_path → q ≠ success_file log_path →
         files w' !! q = files w !! q)
    ∧ stdout w'
      = stdout w
        ++ report (scan (file_lines [] content)).1 (scan (file_lines [] content)).2
        ++ [saved_line log_path].
Proof. apply main_on_file. Qed.


(** The two files are not written as one: when only the path of the second
    is a directory, the first has been written by the time [main] raises,
    and the closing line is not printed. *)
Theorem main_partial_output log_path content w :
  files w !! log_path = Some (File content) →
  files w !! failed_file log_path ≠ Some Dir →
  files w !! success_file log_path = Some Dir →
  ∃ w', main log_path w = (inl (IsADirectoryError (success_file log_path)), w')
    ∧ files w' !! failed_file log_path
      = Some (File (json_dump (scan (file_lines [] content)).1))
    ∧ files w' !! success_file log_path = Some Dir
    ∧ stdout w'
      = stdout w
        ++ report (scan (file_lines [] content)).1 (scan (file_lines [] content)).2.
Proof.
  intros Hp Hf Hs. rewrite main_spec, Hp, Hs.
  assert (Hne := output_files_differ log_path).
  destruct (scan (file_lines [] content)) as [F S]. cbn [fst snd].
  destruct (files w !! failed_file log_path) as [[c1|]|]; [|done|];
    eexists; (split; [reflexivity|]); cbn [files stdout];
    (split_and!;
      [by rewrite lookup_insert_eq | by rewrite lookup_insert_ne | done]).
Qed.

Lemma parent_removelast (p : Path) :
  p ≠ ["/"%string] → parent p = removelast p.
Proof. intros Hp. unfold parent. repeat case_match; subst; done. Qed.

(** The output files go next to the log under fixed names, so a log that
    bears the name of the first output file is replaced by the JSON of its
    own failed logins. *)
Theorem main_overwrites_log_named_as_output dir content w :
  let log_path := dir ++ ["failed_logins.json"%string] in
  files w !! log_path = Some (File content) →
  files w !! success_file log_path ≠ Some Dir →
  failed_file log_path = log_path
  ∧ ∃ w', main log_path w = (inr tt, w')
      ∧ files w' !! log_path
        = Some (File (json_dump (scan (file_lines [] content)).1)).
Proof.
  intros log_path Hp Hs.
  assert (failed_file log_path = log_path) as Hff.
  { unfold failed_file, log_path. f_equal.
    rewrite parent_removelast; [apply removelast_last|].
    intros Heq. apply (f_equal last) in Heq. by rewrite last_snoc in Heq. }
  split; [done|].
  destruct (main_on_file log_path content w) as (w' & Hm & Hf & _);
    [done | by rewrite Hff, Hp | done |].
  exists w'. split; [done|]. by rewrite <-Hff at 1.
Qed.

End ProgramOutcomes.

(** * More on the scan: what the records hold *)

Section ScanOutcomes.
Context {U : UnicodeTables}.

Lemma lstrip_keeps (pre t post : text) a :
  head t = Some a → is_space a = false →
  ∃ pre', lstrip (pre ++ t ++ post) = pre' ++ t ++ post.
Proof.
  intros Ht Ha. induction pre as [|c pre [pre' IH]].
  - exists []. destruct t as [|a' t]; simplify_eq/=. by rewrite Ha.
  - simpl. destruct (is_space c); [by exists pre' | by exists (c :: pre)].
Qed.

Lemma rstrip_keeps (pre t post : text) b :
  last t = Some b → is_space b = false →
  ∃ post', rstrip (pre ++ t ++ post) = pre ++ t ++ post'.
Proof.
  intros Ht Hb. unfold rstrip. rewrite !reverse_app, <-(assoc_L (++)).
  destruct (lstrip_keeps (reverse post) (reverse t) (reverse pre) b)
    as [post' ->]; [by rewrite head_reverse | done |].
  exists (reverse post').
  by rewrite !reverse_app, !reverse_involutive, <-(assoc_L (++)).
Qed.

(** Trimming a line leaves a text that begins and ends with no blank
    where it is. *)
Lemma strip_keeps (pre t post : text) a b :
  head t = Some a → is_space a = false →
  last t = Some b → is_space b = false →
  ∃ pre' post', strip (pre ++ t ++ post) = pre' ++ t ++ post'.
Proof.
  intros Ha Hsa Hb Hsb. unfold strip.
  destruct (lstrip_keeps pre t post a) as [pre' ->]; [done..|].
  destruct (rstrip_keeps pre' t post b) as [post' ->]; [done..|]. eauto.
Qed.

Lemma failed_text_ends o u i d :
  head (failed_text o u i d) = Some 70 ∧ last (failed_text o u i d) = Some 50.
Proof.
  unfold failed_text. split; [by apply head_lit_app|].
  rewrite !(assoc_L (++)). by rewrite last_app.
Qed.

Lemma success_text_ends u i d :
  head (success_text u i d) = Some 65 ∧ last (success_text u i d) = Some 50.
Proof.
  unfold success_text. split; [by apply head_lit_app|].
  rewrite !(assoc_L (++)). by rewrite last_app.
Qed.

(** Every record of the failed list comes from a line of the log that holds
    the text of a failed login: its user is a non-empty run of word
    characters and its ip a non-empty run of digits and dots, neither is
    ever [None], and its raw is the trimmed line, which still holds the
    whole text of the login.  The same holds of the successful list, whose
    lines the failed pattern does not match. *)
Theorem records_well_formed lines :
  (∀ r, r ∈ (scan lines).1 →
     ∃ line pre o u i d post pre' post',
       line ∈ lines ∧ line = pre ++ failed_text o u i d ++ post
       ∧ run is_word u ∧ run is_digit_or_dot i ∧ run is_digit d
       ∧ r = {| user := Some u; ip := Some i; raw := strip line |}
       ∧ raw r = pre' ++ failed_text o u i d ++ post')
  ∧ (∀ r, r ∈ (scan lines).2 →
     ∃ line pre u i d post pre' post',
       line ∈ lines ∧ line = pre ++ success_text u i d ++ post
       ∧ search failed_pattern line = None
       ∧ run is_word u ∧ run is_digit_or_dot i ∧ run is_digit d
       ∧ r = {| user := Some u; ip := Some i; raw := strip line |}
       ∧ raw r = pre' ++ success_text u i d ++ post').
Proof.
  rewrite scan_omap. cbn [fst snd]. split; intros r Hr.
  - apply list_elem_of_omap in Hr as (line & Hin & Hline).
    unfold failed_of_line in Hline.
    destruct (search failed_pattern line) as [m|] eqn:Hm; simplify_eq/=.
    destruct (search_failed_inv _ _ Hm)
      as (pre & o & u & i & d & post & -> & Ho & Hu & Hi & Hd & -> & ->).
    destruct (failed_text_ends o u i d) as [Hh Hl].
    destruct (strip_keeps pre (failed_text o u i d) post 70 50)
      as (pre' & post' & Hs); [done..|].
    exists (pre ++ failed_text o u i d ++ post), pre, o, u, i, d, post, pre', post'.
    done.
  - apply list_elem_of_omap in Hr as (line & Hin & Hline).
    unfold successful_of_line in Hline.
    destruct (search failed_pattern line) as [mf|] eqn:Hf; [done|].
    destruct (search success_pattern line) as [m|] eqn:Hm; simplify_eq/=.
    destruct (search_success_inv _ _ Hm)
      as (pre & u & i & d & post & -> & Hu & Hi & Hd & -> & ->).
    destruct (success_text_ends u i d) as [Hh Hl].
    destruct (strip_keeps pre (success_text u i d) post 65 50)
      as (pre' & post' & Hs); [done..|].
    exists (pre ++ success_text u i d ++ post), pre, u, i, d, post, pre', post'.
    done.
Qed.

(** A line gives one record at most: the two lists together have as many
    records as the log has lines that one of the patterns matches. *)
Theorem one_record_per_line lines :
  (length (scan lines).1 + length (scan lines).2
   = length (filter (λ line, is_Some (search failed_pattern line)
                             ∨ is_Some (search success_pattern line)) lines))%nat
  ∧ (length (scan lines).1 + length (scan lines).2 ≤ length lines)%nat.
Proof.
  assert (length (scan lines).1 + length (scan lines).2
   = length (filter (λ line, is_Some (search failed_pattern line)
                             ∨ is_Some (search success_pattern line)) lines))%nat
    as Hlen.
  { rewrite scan_omap. cbn [fst snd].
    induction lines as [|line lines IH]; [done|].
    cbn [omap list_omap]. rewrite filter_cons.
    unfold failed_of_line at 1, successful_of_line at 1.
    destruct (search failed_pattern line) as [mf|] eqn:Hf.
    - rewrite decide_True by eauto. simpl. by rewrite IH.
    - destruct (search success_pattern line) as [ms|] eqn:Hs.
      + rewrite decide_True by eauto. simpl.
        rewrite Nat.add_succ_r. by rewrite IH.
      + rewrite decide_False by (by intros [[??]|[??]]). simpl. by rewrite IH. }
  split; [done|]. rewrite Hlen. apply length_filter.
Qed.

(** When a line holds more than one failed login, the one recorded is the
    first: the login at the leftmost position at which the pattern
    matches, whatever follows it. *)
Theorem leftmost_login_recorded pre o u i d post failed_logins successful_logins :
  (o = [] ∨ o = str "invalid user ") →
  run is_word u → run is_digit_or_dot i → run is_digit d →
  (∀ j, (j < length pre)%nat →
     match_at failed_pattern (drop j (pre ++ failed_text o u i d ++ post)) = None) →
  scan_line (failed_logins, successful_logins) (pre ++ failed_text o u i d ++ post)
  = (failed_logins
       ++ [ {| user := Some u; ip := Some i;
               raw := strip (pre ++ failed_text o u i d ++ post) |} ],
     successful_logins).
Proof.
  intros Ho Hu Hi Hd Hpre. unfold scan_line.
  rewrite search_skip_positions by done.
  rewrite search_failed_text by done.
  unfold group, failed_groups. by simplify_map_eq.
Qed.

End ScanOutcomes.

(** * Line endings *)

Section LineEndings.
Context {U : UnicodeTables}.

Ltac lit_decide := apply (bool_decide_unpack _); vm_compute; exact I.

Lemma strip_prefix_snoc l s c :
  c ∉ l → strip_prefix l (s ++ [c]) = (λ s', s' ++ [c]) <$> strip_prefix l s.
Proof.
  revert s. induction l as [|a l IH]; intros s Hc; [done|].
  apply not_elem_of_cons in Hc as [Hca Hcl].
  destruct s as [|b s]; simpl.
  - destruct (N.eqb_spec a c); [congruence | done].
  - destruct (a =? b); [by apply IH | done].
Qed.

Lemma plus_set_snoc {A} p s c (k1 k2 : text → option A) :
  p c = false → (∀ s', k1 (s' ++ [c]) = k2 s') →
  plus_set p (s ++ [c]) k1 = plus_set p s k2.
Proof.
  intros Hc Hk. induction s as [|b s IH]; simpl; [by rewrite Hc|].
  destruct (p b); [|done]. by rewrite IH, Hk.
Qed.

(** A character that no part of the pattern takes, put at the end of the
    text, changes nothing to the matches. *)
Lemma rmatch_snoc {A} r s c g (k1 k2 : text → groups → option A) :
  rejects c r → (∀ s' g', k1 (s' ++ [c]) g' = k2 s' g') →
  rmatch r (s ++ [c]) g k1 = rmatch r s g k2.
Proof.
  revert s g k1 k2.
  induction r as [l|p|r IH|r1 IH1 r2 IH2|n r IH]; intros s g k1 k2 Hr Hk; simpl in *.
  - rewrite strip_prefix_snoc by done.
    destruct (strip_prefix l s); simpl; [apply Hk | done].
  - apply plus_set_snoc; [done|]. intros s'. apply Hk.
  - rewrite (IH s g k1 k2), Hk by done. done.
  - destruct Hr as [Hr1 Hr2]. apply IH1; [done|].
    intros s' g'. by apply IH2.
  - apply IH; [done|]. intros s' g'. rewrite Hk. do 2 f_equal.
    rewrite !length_app. simpl.
    replace (length s + 1 - (length s' + 1))%nat with (length s - length s')%nat by lia.
    apply take_app_le. lia.
Qed.

Lemma match_at_snoc r s c : rejects c r → match_at r (s ++ [c]) = match_at r s.
Proof. intros Hr. unfold match_at. by apply rmatch_snoc. Qed.

Lemma search_snoc r s c : rejects c r → search r (s ++ [c]) = search r s.
Proof.
  intros Hr. induction s as [|b s IH].
  - assert (Hat := match_at_snoc r [] c Hr). simpl in *. rewrite Hat.
    by destruct (match_at r []).
  - assert (Hat := match_at_snoc r (b :: s) c Hr). simpl in *.
    by rewrite Hat, IH.
Qed.

Lemma lstrip_snoc s c :
  is_space c = true →
  lstrip (s ++ [c]) = match lstrip s with [] => [] | _ => lstrip s ++ [c] end.
Proof.
  intros Hc. induction s as [|b s IH]; simpl; [by rewrite Hc|].
  destruct (is_space b); done.
Qed.

Lemma rstrip_snoc s c : is_space c = true → rstrip (s ++ [c]) = rstrip s.
Proof. intros Hc. unfold rstrip. rewrite reverse_snoc. simpl. by rewrite Hc. Qed.

Lemma strip_snoc s c : is_space c = true → strip (s ++ [c]) = strip s.
Proof.
  intros Hc. unfold strip. rewrite lstrip_snoc by done.
  destruct (lstrip s) eqn:Hs; [done|]. by rewrite rstrip_snoc.
Qed.

Lemma rejects_lf_failed : rejects 10 failed_pattern.
Proof. simpl. split_and!; try reflexivity; lit_decide. Qed.

Lemma rejects_lf_success : rejects 10 success_pattern.
Proof. simpl. split_and!; try reflexivity; lit_decide. Qed.

(** The line ending plays no part: a line gives the same record with and
    without the LF at its end, so the last line of a log needs none. *)
Theorem line_ending_irrelevant acc line :
  scan_line acc (line ++ [10]) = scan_line acc line.
Proof.
  destruct acc as [F S]. unfold scan_line.
  rewrite (search_snoc failed_pattern), (search_snoc success_pattern)
    by (apply rejects_lf_failed || apply rejects_lf_success).
  by rewrite strip_snoc.
Qed.

End LineEndings.

(** * The lines of a file *)

Section FileLines.
Context {U : UnicodeTables}.

Lemma whole_line_of_cur cur :
  Forall (λ c, c ≠ 10 ∧ c ≠ 13) cur → whole_line (reverse (10 :: cur)).
Proof.
  intros Hcur. exists (reverse cur). rewrite reverse_cons.
  split; [by apply Forall_reverse | by left].
Qed.

Lemma file_lines_whole cur s :
  Forall (λ c, c ≠ 10 ∧ c ≠ 13) cur → Forall whole_line (file_lines cur s).
Proof.
  intros Hcur. remember (length s) as n eqn:Hn. revert s cur Hn Hcur.
  induction n as [n IH] using lt_wf_ind. intros s cur -> Hcur.
  destruct s as [|c s]; simpl.
  - destruct cur as [|c cur]; [constructor|].
    constructor; [|constructor]. exists (reverse (c :: cur)).
    split; [by apply Forall_reverse|]. right. split; [done|].
    intros Hnil%(f_equal length). by rewrite length_reverse in Hnil.
  - destruct (N.eqb_spec c 10) as [->|Hlf].
    { constructor; [by apply whole_line_of_cur|].
      apply (IH (length s)); [simpl; lia | done | constructor]. }
    destruct (N.eqb_spec c 13) as [->|Hcr].
    + destruct s as [|c' s].
      { constructor; [by apply whole_line_of_cur | constructor]. }
      destruct (c' =? 10).
      * constructor; [by apply whole_line_of_cur|].
        apply (IH (length s)); [simpl; lia | done | constructor].
      * constructor; [by apply whole_line_of_cur|].
        apply (IH (length (c' :: s))); [simpl; lia | done | constructor].
    + apply (IH (length s)); [simpl; lia | done | by constructor].
Qed.

Lemma file_lines_concat cur s :
  Forall (λ c, c ≠ 13) s → concat (file_lines cur s) = reverse cur ++ s.
Proof.
  intros Hs. revert cur. induction Hs as [|c s Hc Hs IH]; intros cur; simpl.
  - destruct cur; simpl; by rewrite ?(right_id_L [] (++)).
  - destruct (N.eqb_spec c 10) as [->|Hlf].
    { simpl. rewrite IH, reverse_cons, <-(assoc_L (++)). done. }
    destruct (N.eqb_spec c 13) as [->|_]; [done|].
    rewrite IH, reverse_cons, <-(assoc_L (++)). done.
Qed.

Lemma file_lines_crlf cur s :
  Forall (λ c, c ≠ 13) s → file_lines cur (to_crlf s) = file_lines cur s.
Proof.
  intros Hs. revert cur. induction Hs as [|c s Hc Hs IH]; intros cur; [done|].
  cbn [to_crlf]. destruct (N.eqb_spec c 10) as [->|Hlf].
  - simpl. by rewrite IH.
  - simpl. destruct (N.eqb_spec c 10); [done|].
    destruct (N.eqb_spec c 13); [done|]. apply IH.
Qed.

(** The lines the file yields are whole lines: none is empty, none holds a
    CR, and an LF is only ever the last character of a line.  When the
    text has no CR, the lines put end to end are the text: no character of
    the log is lost or added. *)
Theorem file_yields_whole_lines content :
  Forall whole_line (file_lines [] content)
  ∧ (Forall (λ c, c ≠ 13) content → concat (file_lines [] content) = content).
Proof.
  split; [apply file_lines_whole; constructor|].
  intros Hcr. by rewrite file_lines_concat.
Qed.

(** A log written with CR LF line endings is scanned as the same log
    written with LF line endings. *)
Theorem crlf_log_same_result log_path content w1 w2 :
  Forall (λ c, c ≠ 13) content →
  files w1 !! log_path = Some (File content) →
  files w2 !! log_path = Some (File (to_crlf content)) →
  file_lines [] (to_crlf content) = file_lines [] content
  ∧ (parse_auth_log log_path w2).1 = (parse_auth_log log_path w1).1
  ∧ (parse_auth_log log_path w1).1 = inr (scan (file_lines [] content)).
Proof.
  intros Hcr H1 H2.
  assert (Hl := file_lines_crlf [] content Hcr). split; [done|].
  unfold parse_auth_log. rewrite !bind_run. unfold read_lines.
  rewrite H1, H2, Hl. done.
Qed.

Lemma strip_whole_line line :
  whole_line line → Forall (λ c, c ≠ 10 ∧ c ≠ 13) (strip line).
Proof.
  intros (body & Hbody & Hline).
  destruct (strip_trimmed line) as (l & r & Heq & _ & _ & _ & Hlast).
  destruct Hline as [->| [-> _]].
  - destruct r as [|x r _] using rev_ind.
    + rewrite (right_id_L [] (++)) in Heq.
      destruct (strip (body ++ [10])) as [|y t _] using rev_ind; [constructor|].
      rewrite (assoc_L (++)) in Heq. apply app_inj_tail in Heq as [_ <-].
      specialize (Hlast 10). rewrite last_snoc in Hlast.
      by specialize (Hlast eq_refl).
    + rewrite !(assoc_L (++)) in Heq. apply app_inj_tail in Heq as [Heq _].
      rewrite Heq in Hbody.
      by apply Forall_app in Hbody as [[_ Ht]%Forall_app _].
  - rewrite Heq in Hbody.
    by apply Forall_app in Hbody as [_ [Ht _]%Forall_app].
Qed.

(** The raw of a record is one line: whatever the log, no record that
    [parse_auth_log] returns has an LF or a CR in its raw. *)
Theorem raw_is_one_line log_path w failed_logins successful_logins r :
  (parse_auth_log log_path w).1 = inr (failed_logins, successful_logins) →
  r ∈ failed_logins ++ successful_logins →
  Forall (λ c, c ≠ 10 ∧ c ≠ 13) (raw r).
Proof.
  unfold parse_auth_log. rewrite bind_run. unfold read_lines.
  destruct (files w !! log_path) as [[content|]|]; [|done..].
  cbn [fst]. unfold mret, M_ret. rewrite scan_omap. intros [= <- <-] Hr.
  assert (∃ line, line ∈ file_lines [] content ∧ raw r = strip line)
    as (line & Hin & ->).
  { apply elem_of_app in Hr as [Hr|Hr];
      apply list_elem_of_omap in Hr as (line & Hin & Hline);
      exists line; (split; [done|]).
    - unfold failed_of_line in Hline.
      destruct (search failed_pattern line); by simplify_eq/=.
    - unfold successful_of_line in Hline.
      destruct (search failed_pattern line); [done|].
      destruct (search success_pattern line); by simplify_eq/=. }
  apply strip_whole_line.
  assert (Hall := file_lines_whole [] content (Forall_nil_2 _)).
  rewrite Forall_forall in Hall. by apply Hall.
Qed.

End FileLines.

(** * The JSON that is written *)

Section Json.

Ltac lit_printable :=
  lazymatch goal with
  | |- Forall _ (str _) => apply (bool_decide_unpack _); vm_compute; exact I
  | |- Forall _ (_ :: _) => repeat (constructor; [reflexivity|]); apply Forall_nil_2
  | |- Forall _ [] => apply Forall_nil_2
  end.

Lemma hex_digit_printable n : n < 16 → printable (hex_digit n) = true.
Proof.
  intros Hn. unfold printable, hex_digit.
  destruct (N.ltb_spec n 10);
    apply orb_true_iff; right; apply andb_true_iff;
    split; apply N.leb_le; lia.
Qed.

Lemma u_escape_printable n : Forall (λ c, printable c = true) (u_escape n).
Proof.
  unfold u_escape, hex4.
  repeat constructor; apply hex_digit_printable, N.mod_lt; done.
Qed.

Lemma escape_char_printable c : Forall (λ c, printable c = true) (escape_char c).
Proof.
  unfold escape_char.
  repeat (case_match; [lit_printable|]).
  case_match; [|case_match].
  - repeat constructor. unfold printable. apply orb_true_iff. by right.
  - apply u_escape_printable.
  - apply Forall_app. split; apply u_escape_printable.
Qed.

Lemma json_string_printable s : Forall (λ c, printable c = true) (json_string s).
Proof.
  unfold json_string. rewrite !Forall_app. split_and!; [lit_printable| |lit_printable].
  apply Forall_concat, Forall_fmap, Forall_true. intros c. apply escape_char_printable.
Qed.

Lemma join_printable sep items :
  Forall (λ c, printable c = true) sep →
  Forall (Forall (λ c, printable c = true)) items →
  Forall (λ c, printable c = true) (join sep items).
Proof.
  intros Hsep Hitems. induction Hitems as [|x items Hx Hitems IH]; [constructor|].
  destruct items as [|y items]; [done|].
  change (join sep (x :: y :: items)) with (x ++ sep ++ join sep (y :: items)).
  rewrite !Forall_app. done.
Qed.

Lemma json_value_printable v : Forall (λ c, printable c = true) (json_value v).
Proof. destruct v; simpl; [apply json_string_printable | lit_printable]. Qed.

Lemma json_attempt_printable a : Forall (λ c, printable c = true) (json_attempt a).
Proof.
  unfold json_attempt. rewrite !Forall_app. split_and!; try lit_printable.
  apply join_printable; [rewrite !Forall_app; split_and!; lit_printable|].
  rewrite !Forall_cons, !Forall_app.
  split_and!;
    first [lit_printable | apply json_string_printable
          | apply json_value_printable | apply Forall_nil_2].
Qed.

(** Whatever the log holds, the text written to an output file is made of
    LF and printable ASCII characters only: every other character of a
    record is written as an escape. *)
Theorem json_dump_printable l : Forall (λ c, printable c = true) (json_dump l).
Proof.
  unfold json_dump. destruct l as [|a l]; [lit_printable|].
  rewrite !Forall_app. split_and!; try lit_printable.
  apply join_printable; [rewrite !Forall_app; split_and!; lit_printable|].
  apply Forall_fmap, Forall_true. intros b. apply json_attempt_printable.
Qed.

End Json.

(** * The further properties at concrete inputs *)

(** On [busy_world] the program writes the JSON of the failed list. *)
Lemma main_writes_scan_results_witness :
  ∃ w', main (U := ascii_tables) ["var"; "auth.log"]%string busy_world = (inr tt, w')
    ∧ files w' !! failed_file ["var"; "auth.log"]%string
      = Some (File (json_dump
           (scan (U := ascii_tables)
              (file_lines [] (bob_line ++ [13; 10] ++ alice_line ++ [10]))).1)).
Proof.
  destruct (@main_writes_scan_results ascii_tables ["var"; "auth.log"]%string
              (bob_line ++ [13; 10] ++ alice_line ++ [10]) busy_world)
    as (w' & Hm & Hf & _).
  - vm_compute. reflexivity.
  - vm_compute. discriminate.
  - vm_compute. discriminate.
  - exists w'. split; [exact Hm | exact Hf].
Defined.

(** On [blocked_world] the first file is written before the program
    raises. *)
Lemma main_partial_output_witness :
  ∃ w', main (U := ascii_tables) ["var"; "auth.log"]%string blocked_world
        = (inl (IsADirectoryError (success_file ["var"; "auth.log"]%string)), w')
    ∧ files w' !! failed_file ["var"; "auth.log"]%string
      = Some (File (json_dump
           (scan (U := ascii_tables) (file_lines [] (bob_line ++ [10]))).1)).
Proof.
  destruct (@main_partial_output ascii_tables ["var"; "auth.log"]%string
              (bob_line ++ [10]) blocked_world)
    as (w' & Hm & Hf & _).
  - vm_compute. reflexivity.
  - vm_compute. discriminate.
  - vm_compute. reflexivity.
  - exists w'. split; [exact Hm | exact Hf].
Defined.

(** On [confused_world] the log is replaced by the JSON of its failed
    logins. *)
Lemma main_overwrites_log_named_as_output_witness :
  ∃ w', main (U := ascii_tables) ["var"; "failed_logins.json"]%string confused_world
        = (inr tt, w')
    ∧ files w' !! ["var"; "failed_logins.json"]%string
      = Some (File (json_dump
           (scan (U := ascii_tables) (file_lines [] (bob_line ++ [10]))).1)).
Proof.
  apply (@main_overwrites_log_named_as_output ascii_tables ["var"%string]
           (bob_line ++ [10]) confused_world).
  - vm_compute. reflexivity.
  - vm_compute. discriminate.
Defined.

(** The record of the line of bob comes from a line with the text of a
    failed login. *)
Lemma records_well_formed_witness :
  let r := {| user := Some (str "bob"); ip := Some (str "10.0.0.5"); raw := bob_line |} in
  r ∈ (scan (U := ascii_tables) [bob_line ++ [10]]).1
  ∧ ∃ u i, r = {| user := Some u; ip := Some i; raw := raw r |}
      ∧ run (is_word (U := ascii_tables)) u.
Proof.
  intros r.
  assert (r ∈ (scan (U := ascii_tables) [bob_line ++ [10]]).1) as Hr
    by (vm_compute; left).
  split; [exact Hr|].
  destruct (proj1 (@records_well_formed ascii_tables [bob_line ++ [10]]) r Hr)
    as (line & pre & o & u & i & d & post & pre' & post'
        & _ & _ & Hu & _ & _ & Heq & _).
  exists u, i. split; [|exact Hu]. rewrite Heq at 1. by rewrite Heq.
Defined.

(** Of the two logins of [two_logins_line], the first is recorded. *)
Lemma leftmost_login_recorded_witness :
  scan_line (U := ascii_tables) ([], []) two_logins_line
  = ([] ++ [ {| user := Some (str "ann"); ip := Some (str "10.0.0.1");
                raw := strip (U := ascii_tables) two_logins_line |} ], []).
Proof.
  apply (@leftmost_login_recorded ascii_tables (str "10:00 ") [] (str "ann")
           (str "10.0.0.1") (str "22")
           (str "; " ++ failed_text [] (str "bea") (str "10.0.0.2") (str "22")) [] []).
  - left. reflexivity.
  - split; [by vm_compute | apply (bool_decide_unpack _); vm_compute; exact I].
  - split; [by vm_compute | apply (bool_decide_unpack _); vm_compute; exact I].
  - split; [by vm_compute | apply (bool_decide_unpack _); vm_compute; exact I].
  - intros j Hj. change (length (str "10:00 ")) with 6%nat in Hj.
    do 6 (destruct j as [|j]; [vm_compute; reflexivity|]). lia.
Defined.

(** A text of two lines without CR is the lines put end to end. *)
Lemma file_yields_whole_lines_witness :
  concat (file_lines [] (str "one" ++ [10] ++ str "two"))
  = str "one" ++ [10] ++ str "two".
Proof.
  apply (proj2 (file_yields_whole_lines (str "one" ++ [10] ++ str "two"))).
  apply (bool_decide_unpack _). vm_compute. exact I.
Defined.

(** The log of two logins written with CR LF gives the lines of the log
    written with LF. *)
Lemma crlf_log_same_result_witness :
  file_lines [] (to_crlf (bob_line ++ [10] ++ alice_line ++ [10]))
  = file_lines [] (bob_line ++ [10] ++ alice_line ++ [10]).
Proof.
  apply (@crlf_log_same_result ascii_tables ["auth.log"%string]
           (bob_line ++ [10] ++ alice_line ++ [10])
           {| files := {[ ["auth.log"%string]
                          := File (bob_line ++ [10] ++ alice_line ++ [10]) ]};
              stdout := [] |}
           {| files := {[ ["auth.log"%string]
                          := File (to_crlf (bob_line ++ [10] ++ alice_line ++ [10])) ]};
              stdout := [] |}).
  - apply (bool_decide_unpack _). vm_compute. exact I.
  - vm_compute. reflexivity.
  - vm_compute. reflexivity.
Defined.

(** The raw of the record of bob, read from [busy_world], is one line. *)
Lemma raw_is_one_line_witness :
  Forall (λ c, c ≠ 10 ∧ c ≠ 13)
    (raw {| user := Some (str "bob"); ip := Some (str "10.0.0.5"); raw := bob_line |}).
Proof.
  apply (@raw_is_one_line ascii_tables ["var"; "auth.log"]%string busy_world
           (scan (U := ascii_tables)
              (file_lines [] (bob_line ++ [13; 10] ++ alice_line ++ [10]))).1
           (scan (U := ascii_tables)
              (file_lines [] (bob_line ++ [13; 10] ++ alice_line ++ [10]))).2).
  - vm_compute. reflexivity.
  - vm_compute. left.
Defined.
